(** * CheckEngine: graphics-context lifecycle and the affinity coordinator

    A shallow embedding of
      - src/graphics/context/glfw_context.cpp
      - src/util/intrinsics/bootable_game.cpp
    The C++ code mutates process-wide state (the coordinator singleton, the
    native windowing library, the per-thread registry).  That state is made
    explicit as a record [world]; every routine becomes a computation in a
    small state monad over it, and each native call is also appended to a
    trace so that the order of calls can be stated. *)

From stdpp Require Import base option list gmap strings pretty.
From Stdlib Require Import ZArith Lia.

Open Scope Z_scope.

(** ** Data model *)

(** Thread identities ([std::this_thread::get_id()]). *)
Definition thread := nat.
Bind Scope nat_scope with thread.

(** A [GLFWwindow*]: [None] is the null pointer, [Some a] points to the
    native window/context pair with address [a]. *)
Definition GLFWwindow := nat.
Bind Scope nat_scope with GLFWwindow.
Abbreviation NULL := (@None GLFWwindow).

(** Constants of the native headers. *)
Definition GLFW_TRUE : Z := 1.
Definition GLFW_FALSE : Z := 0.
Definition GLFW_VISIBLE : Z := 0x00020004.
Definition GLFW_CONTEXT_VERSION_MAJOR : Z := 0x00022002.
Definition GLFW_CONTEXT_VERSION_MINOR : Z := 0x00022003.
Definition GLEW_OK : Z := 0.
Definition GL_NO_ERROR : Z := 0.

(** The resource types stored in the per-thread registry ([per_thread<T>]). *)
Inductive resource := glfw_context_t | glfw_window_t.

#[global] Instance resource_eq_dec : EqDecision resource.
Proof. solve_decision. Defined.

#[global] Instance resource_countable : Countable resource.
Proof.
  refine (inj_countable' (λ r, match r with glfw_context_t => 0%nat | glfw_window_t => 1%nat end)
                         (λ n, match n with O => glfw_context_t | _ => glfw_window_t end) _).
  by intros [].
Defined.

(** The elements of the deferred task queue are [std::function<bool()>*].
    [destroy_lambda ptr] is the closure built in
    [destroy_glfw_window::operator()] (it captures [ptr] by value).
    [client_function id ret adds] stands for any other callable a thread may
    have enqueued: the coordinator sees of it only the value it returns and
    the tasks it adds to the queue while it runs.  Tasks are finite trees,
    so a callable that would re-add itself without end is not represented. *)
#[warnings="-register-all"]
Inductive task :=
| destroy_lambda (ptr : option GLFWwindow)
| client_function (id : nat) (ret : bool) (adds : list task).

(** Severity of a line written through [_log]. *)
Inductive level := INFO | DEBUG | ERROR.

(** One entry of the trace: a call into the native library, into a
    collaborator of this repository, or an operation on a heap task. *)
Inductive call :=
| glfwDefaultWindowHints_
| glfwWindowHint_ (hint value : Z)
| glfwCreateWindow_ (width height : Z) (ret : option GLFWwindow)
| glfwMakeContextCurrent_ (window : option GLFWwindow)
| glewInit_ (ret : Z)
| glfwTerminate_
| glfwDestroyWindow_ (window : option GLFWwindow)
| glfwPostEmptyEvent_
| glfwWaitEventsTimeout_
| glfwWindowShouldClose_ (window : option GLFWwindow) (ret : Z)
| glGetError_ (ret : Z)
| invoke_ (first : task)
| client_ (id : nat)
| delete_ (first : task)
| get_or_create_ (r : resource)
| set_ (r : resource)
| remove_reference_ (r : resource)
| show_
| swap_buffers_
| temp_start_
| temp_update_
| init_time_update_
| log_ (l : level) (message : string).

(** The process-wide state. *)
Record world := World {
  hints : gmap Z Z;                        (* window hints set since the last reset *)
  current : gmap thread GLFWwindow;        (* context current on each thread; no entry = none *)
  thread_queue : list task;                (* global_glfw_context::instance->thread_queue *)
  active_contexts : Z;                     (* global_glfw_context::instance->active_contexts *)
  registry : gmap (resource * thread) nat; (* per_thread<T>: reference count of each entry *)
  trace : list (thread * call)             (* every call so far, with the calling thread *)
}.

(** What the environment answers.  The native library and the clock are
    outside the repository, so their return values are parameters; each may
    depend on everything that happened before the call. *)
Record native := Native {
  glfwCreateWindow_ret : list (thread * call) → option GLFWwindow;
  glewInit_ret : list (thread * call) → Z;
  glfwWindowShouldClose_ret : list (thread * call) → Z;
  glGetError_ret : list (thread * call) → Z;
  delta_time_ret : list (thread * call) → string
}.

(** ** The state monad *)

Definition M (A : Type) : Type := world → A * world.

Definition ret {A} (a : A) : M A := λ w, (a, w).
Definition bind {A B} (m : M A) (k : A → M B) : M B :=
  λ w, let (a, w') := m w in k a w'.

Declare Scope monad_scope.
Delimit Scope monad_scope with M.
Notation "'do' x <- m ; k" := (bind m (λ x, k))
  (at level 10, x name, m at level 100, k at level 200) : monad_scope.
Notation "m ;; k" := (bind m (λ _, k))
  (at level 100, k at level 200, right associativity) : monad_scope.
Open Scope monad_scope.

Definition exec {A} (m : M A) (w : world) : world := snd (m w).

Definition get_trace : M (list (thread * call)) := λ w, (trace w, w).

(** Append one entry to the trace. *)
Definition emit (tid : thread) (c : call) : M unit :=
  λ w, (tt, World (hints w) (current w) (thread_queue w) (active_contexts w)
                  (registry w) (trace w ++ [(tid, c)])).

Definition set_hints (h : gmap Z Z) : M unit :=
  λ w, (tt, World h (current w) (thread_queue w) (active_contexts w) (registry w) (trace w)).
Definition set_current (c : gmap thread GLFWwindow) : M unit :=
  λ w, (tt, World (hints w) c (thread_queue w) (active_contexts w) (registry w) (trace w)).
Definition set_thread_queue (q : list task) : M unit :=
  λ w, (tt, World (hints w) (current w) q (active_contexts w) (registry w) (trace w)).
Definition set_active_contexts (n : Z) : M unit :=
  λ w, (tt, World (hints w) (current w) (thread_queue w) n (registry w) (trace w)).
Definition set_registry (r : gmap (resource * thread) nat) : M unit :=
  λ w, (tt, World (hints w) (current w) (thread_queue w) (active_contexts w) r (trace w)).

(** ** The native library

    Only what the repository's code observes of it is modelled: the window
    hints, which context is current on which thread, and the order of the
    calls.  Return values come from [native]. *)

Section Native.

Context (lib : native).

Definition glfwDefaultWindowHints (tid : thread) : M unit :=
  emit tid glfwDefaultWindowHints_;; set_hints ∅.

Definition glfwWindowHint (tid : thread) (hint value : Z) : M unit :=
  emit tid (glfwWindowHint_ hint value);;
  λ w, set_hints (<[hint := value]> (hints w)) w.

Definition glfwCreateWindow (tid : thread) (width height : Z) : M (option GLFWwindow) :=
  do t <- get_trace;
  let r := glfwCreateWindow_ret lib t in
  emit tid (glfwCreateWindow_ width height r);; ret r.

Definition glfwMakeContextCurrent (tid : thread) (window : option GLFWwindow) : M unit :=
  emit tid (glfwMakeContextCurrent_ window);;
  λ w, set_current (match window with
                    | Some a => <[tid := a]> (current w)
                    | None => delete tid (current w)
                    end) w.

Definition glewInit (tid : thread) : M Z :=
  do t <- get_trace;
  let r := glewInit_ret lib t in
  emit tid (glewInit_ r);; ret r.

(** Of [glfwTerminate] only the call is recorded: what the library does to
    its windows and to the current contexts when it terminates is not part
    of [world]. *)
Definition glfwTerminate (tid : thread) : M unit := emit tid glfwTerminate_.
Definition glfwDestroyWindow (tid : thread) (window : option GLFWwindow) : M unit :=
  emit tid (glfwDestroyWindow_ window).
Definition glfwPostEmptyEvent (tid : thread) : M unit := emit tid glfwPostEmptyEvent_.
Definition glfwWaitEventsTimeout (tid : thread) : M unit := emit tid glfwWaitEventsTimeout_.

Definition glfwWindowShouldClose (tid : thread) (window : option GLFWwindow) : M Z :=
  do t <- get_trace;
  let r := glfwWindowShouldClose_ret lib t in
  emit tid (glfwWindowShouldClose_ window r);; ret r.

Definition glGetError (tid : thread) : M Z :=
  do t <- get_trace;
  let r := glGetError_ret lib t in
  emit tid (glGetError_ r);; ret r.

End Native.

(** ** Collaborators declared outside src/ *)

(** Modelled from the spec: [add] of the deferred task queue class behind
    [thread_queue] (its header is not under src/) enqueues a task at the
    back. *)
Definition add (t : task) : M unit :=
  λ w, set_thread_queue (thread_queue w ++ [t]) w.

(** Modelled from the spec: [get_size] of the deferred task queue is the
    number of pending tasks. *)
Definition get_size : M Z :=
  λ w, (Z.of_nat (length (thread_queue w)), w).

(** Modelled from the spec: [remove] of the deferred task queue pops the
    earliest-added task.  On an empty queue it would block; it yields
    [None] here. *)
Definition remove : M (option task) :=
  λ w, match thread_queue w with
       | [] => (None, w)
       | first :: rest => (Some first, snd (set_thread_queue rest w))
       end.

(** Modelled from the spec: the table of the per-thread registry
    [per_thread<T>] of util/intrinsics/singleton.h (not under src/) has one
    entry per (resource type, thread), with a reference count.  Acquiring
    constructs the instance on the first call and adds one to the count on
    every call. *)
Definition acquired (k : resource * thread) (reg : gmap (resource * thread) nat)
  : gmap (resource * thread) nat :=
  <[k := S (default 0%nat (reg !! k))]> reg.

(** Modelled from the spec: installing an existing instance for a thread
    makes the entry exist and counts no reference. *)
Definition installed (k : resource * thread) (reg : gmap (resource * thread) nat)
  : gmap (resource * thread) nat :=
  <[k := default 0%nat (reg !! k)]> reg.

(** Modelled from the spec: releasing takes one from the count and erases
    the entry when the count reaches zero. *)
Definition released (k : resource * thread) (reg : gmap (resource * thread) nat)
  : gmap (resource * thread) nat :=
  match reg !! k with
  | Some (S (S n)) => <[k := S n]> reg
  | Some _ => delete k reg
  | None => reg
  end.

(** Modelled from the spec: [per_thread<T>::get_or_create()] called by
    thread [tid] for resource type [r]. *)
Definition get_or_create (tid : thread) (r : resource) : M unit :=
  emit tid (get_or_create_ r);;
  λ w, set_registry (acquired (r, tid) (registry w)) w.

(** Modelled from the spec: [per_thread<T>::set(value)] called by thread
    [tid]. *)
Definition set (tid : thread) (r : resource) : M unit :=
  emit tid (set_ r);;
  λ w, set_registry (installed (r, tid) (registry w)) w.

(** Modelled from the spec: [per_thread<T>::remove_reference()] called by
    thread [tid]. *)
Definition remove_reference (tid : thread) (r : resource) : M unit :=
  emit tid (remove_reference_ r);;
  λ w, set_registry (released (r, tid) (registry w)) w.

(** Modelled from the spec: [show] of the window utility [glfw_window]
    (not under src/) reveals the window; it is opaque here and only leaves
    a trace entry. *)
Definition show (tid : thread) : M unit := emit tid show_.

(** Modelled from the spec: [swap_buffers] of the window utility swaps the
    buffers of the thread's window; opaque, it only leaves a trace entry. *)
Definition swap_buffers (tid : thread) : M unit := emit tid swap_buffers_.

(** Modelled from the spec: the logger [_log] (out of scope of the
    repository core) writes one line; it only leaves a trace entry. *)
Definition log (tid : thread) (l : level) (message : string) : M unit :=
  emit tid (log_ l message).

(** [std::to_string(int)]. *)
Definition to_string (n : Z) : string := pretty n.

(** ** src/graphics/context/glfw_context.cpp *)

(** [destroy_glfw_window::operator() (GLFWwindow* ptr)] *)
Definition destroy_glfw_window (tid : thread) (ptr : option GLFWwindow) : M unit :=
  (* Relinquish the context from the current thread *)
  glfwMakeContextCurrent tid NULL;;
  (* Schedule a main-thread task to destroy the context *)
  add (destroy_lambda ptr);;
  glfwPostEmptyEvent tid.

(** The call through [first] in [execute_queue]: run one task on thread
    [tid]; the result is what the callable returns. *)
Definition invoke (tid : thread) (first : task) : M bool :=
  emit tid (invoke_ first);;
  match first with
  | destroy_lambda ptr =>
      glfwDestroyWindow tid ptr;;
      (* Return true to indicate this lambda should be deleted once executed *)
      ret true
  | client_function id r adds =>
      emit tid (client_ id);;
      foldr (λ t k, add t;; k) (ret tt) adds;;
      ret r
  end.

(** How many loop iterations a task can cause: itself and whatever it adds. *)
Fixpoint task_weight (t : task) : nat :=
  match t with
  | destroy_lambda _ => 1
  | client_function _ _ adds => S (foldr (λ t n, task_weight t + n)%nat 0%nat adds)
  end.

(** The weight of all tasks of a queue. *)
Definition queue_weight (q : list task) : nat :=
  foldr (λ t n, task_weight t + n)%nat 0%nat q.

(** A context handle.  [pointer] is the owning smart pointer member whose
    deleter is [destroy_glfw_window]. *)
Record glfw_context := Glfw_context { pointer : option GLFWwindow }.

(** Modelled from the spec: the member [pointer] is declared in
    glfw_context.h (not under src/); it is an owning smart pointer whose
    custom deleter is [destroy_glfw_window].  When the owner lets go of it
    the deleter runs on the held pointer; as for [std::unique_ptr], nothing
    runs when no pointer is held. *)
Definition pointer_release (tid : thread) (ptr : option GLFWwindow) : M unit :=
  match ptr with
  | Some _ => destroy_glfw_window tid ptr
  | None => ret tt
  end.

(** How a constructor ends. *)
Inductive outcome (A : Type) :=
| returned (a : A)
| thrown (what : string).
Arguments returned {A} a.
Arguments thrown {A} what.

Module glfw_context.
Section WithNative.

Context (lib : native).

(** [glfw_context::make_current()] *)
Definition make_current (tid : thread) (this : glfw_context) : M unit :=
  glfwMakeContextCurrent tid (pointer this).

(** [glfw_context::glfw_context(int context_version)], run by thread
    [tid].  [/] and [%] on [int] truncate towards zero.  The declaration
    of [active_contexts] is in the header; it is counted in [Z].  When the
    constructor throws, the already constructed member [pointer] is
    released and the destructor body does not run. *)
Definition constructor (tid : thread) (context_version : Z) : M (outcome glfw_context) :=
  glfwDefaultWindowHints tid;;
  glfwWindowHint tid GLFW_CONTEXT_VERSION_MAJOR (context_version `quot` 10);;
  glfwWindowHint tid GLFW_CONTEXT_VERSION_MINOR (context_version `rem` 10);;
  glfwWindowHint tid GLFW_VISIBLE GLFW_FALSE;;
  do created <- glfwCreateWindow lib tid 1366 910;
  let this := Glfw_context created in
  make_current tid this;;
  do status <- glewInit lib tid;
  if decide (status ≠ GLEW_OK) then
    glfwTerminate tid;;
    pointer_release tid (pointer this);;
    ret (thrown "GLEW failed to initialize; check system requirements and libraries")
  else
    (* Relinquish all contexts on the main thread *)
    glfwMakeContextCurrent tid NULL;;
    (λ w, set_active_contexts (active_contexts w + 1) w);;
    ret (returned this).

(** [glfw_context::~glfw_context()], run by thread [tid]: the body, then
    the member [pointer] is released. *)
Definition destructor (tid : thread) (this : glfw_context) : M unit :=
  (λ w, set_active_contexts (active_contexts w - 1) w);;
  pointer_release tid (pointer this).

End WithNative.
End glfw_context.

(** ** The process around the coordinator

    What the threads of the process do to the shared state, one completed
    operation at a time.  [handles] are the context handles that were
    constructed and have not been destroyed yet. *)
Record process := Process {
  handles : list glfw_context;
  shared : world
}.

Inductive op :=
| new_glfw_context (tid : thread) (context_version : Z)  (* new glfw_context(v) on tid *)
| delete_glfw_context (tid : thread) (i : nat)           (* the i-th handle dies on tid *)
| enqueue (t : task).                                    (* thread_queue.add(t) *)

(** Apply a change of the shared state; the set of live handles stays. *)
Definition on_shared (f : world → world) (p : process) : process :=
  Process (handles p) (f (shared p)).

Section Process.

Context (lib : native).

(** One operation of some thread.  A construction that returns adds its
    handle to the live ones, one that throws adds none; a destruction takes
    the handle out and runs its destructor; where there is no [i]-th live
    handle there is nothing to destroy. *)
Definition run_op (o : op) (p : process) : process :=
  match o with
  | new_glfw_context tid context_version =>
      match glfw_context.constructor lib tid context_version (shared p) with
      | (returned this, w) => Process (handles p ++ [this]) w
      | (thrown _, w) => Process (handles p) w
      end
  | delete_glfw_context tid i =>
      match handles p !! i with
      | Some this =>
          Process (delete i (handles p)) (exec (glfw_context.destructor tid this) (shared p))
      | None => p
      end
  | enqueue t => on_shared (exec (add t)) p
  end.

(** A sequence of operations, in the order in which they complete. *)
Definition run_ops (ops : list op) (p : process) : process :=
  foldl (λ p o, run_op o p) p ops.

End Process.

Module global_glfw_context.

(** The [while] loop of [execute_queue].  The result is [true] when the
    loop has left through its condition and [false] when [fuel]
    iterations were not enough. *)
Fixpoint execute_queue_loop (fuel : nat) (tid : thread) : M bool :=
  match fuel with
  | O => ret false
  | S fuel' =>
      do size <- get_size;
      if 0 <? size then
        do popped <- remove;
        match popped with
        | None => ret false
        | Some first =>
            (* If the lambda returns true, delete once executed *)
            do r <- invoke tid first;
            (if r : bool then emit tid (delete_ first) else ret tt);;
            execute_queue_loop fuel' tid
        end
      else ret true
  end.

(** [global_glfw_context::execute_queue()], run by thread [tid].  The
    loop gets one more iteration than the pending tasks weigh, which is
    always enough. *)
Definition execute_queue (tid : thread) : M unit :=
  λ w, (execute_queue_loop (S (queue_weight (thread_queue w))) tid;; ret tt) w.

Section WithNative.

Context (lib : native).

(** [global_glfw_context::park_thread()], run by the affinity thread
    [tid].  The other threads make progress while this one is blocked in
    [glfwWaitEventsTimeout]: [others] lists, wait by wait, the operations
    they complete meanwhile.  When [others] is used up nobody else will
    ever act again; if the counter is still positive then, the loop
    cannot end and the result is [None]. *)
Fixpoint park_thread (tid : thread) (others : list (list op)) (p : process)
  : option process :=
  if 0 <? active_contexts (shared p) then
    match others with
    | [] => None
    | ops :: others' =>
        let p := on_shared (exec (glfwWaitEventsTimeout tid)) p in
        let p := run_ops lib ops p in
        let p := on_shared (exec (execute_queue tid)) p in
        park_thread tid others' p
    end
  else Some (on_shared (exec (execute_queue tid)) p).

End WithNative.

End global_glfw_context.

(** ** src/util/intrinsics/bootable_game.cpp *)

(** A [bootable_game] owns its context handle; the two callbacks are user
    code, opaque here: calling one leaves a trace entry. *)
Record bootable_game := Bootable_game { context : glfw_context }.

Definition temp_start (tid : thread) : M unit := emit tid temp_start_.
Definition temp_update (tid : thread) : M unit := emit tid temp_update_.

(** The escape character written [\033] in the source. *)
Definition ESC : string := String (Ascii.ascii_of_nat 27) EmptyString.

Module bootable_game.
Section WithNative.

Context (lib : native).

(** [bootable_game::bootable_game(temp_start, temp_update)] *)
Definition constructor (tid : thread) : M (outcome bootable_game) :=
  do created <- glfw_context.constructor lib tid 43;
  match created with
  | returned c => ret (returned (Bootable_game c))
  | thrown what => ret (thrown what)
  end.

(** One pass through the body of the frame loop. *)
Definition frame (tid : thread) : M unit :=
  temp_update tid;;
  do error <- glGetError lib tid;
  (if decide (error ≠ GL_NO_ERROR) then
     log tid ERROR
       ("An OpenGL error has occurred; context error flag is set to " +:+ to_string error)
   else ret tt);;
  (* window->swap_buffers() *)
  swap_buffers tid.

(** The frame loop; [true] when it ended because the window should
    close, [false] when [fuel] frames were not enough. *)
Fixpoint frame_loop (fuel : nat) (tid : thread) (this : bootable_game) : M bool :=
  match fuel with
  | O => ret false
  | S fuel' =>
      do close <- glfwWindowShouldClose lib tid (pointer (context this));
      if decide (close ≠ GLFW_TRUE) then
        frame tid;;
        frame_loop fuel' tid this
      else ret true
  end.

(** [bootable_game::park_thread()], run by the worker thread [tid] on its
    copy [this].  The registry hands back the instance installed by [set]
    on the line before, so [make_current] is called on [this->context]. *)
Definition park_thread (fuel : nat) (tid : thread) (this : bootable_game) : M bool :=
  log tid INFO "Branched primary application thread for graphical context";;
  set tid glfw_context_t;;
  get_or_create tid glfw_context_t;;
  glfw_context.make_current tid (context this);;
  log tid INFO "Initializing additional window and user input devices . . .";;
  (* auto window = per_thread<glfw_window>::get_or_create() *)
  get_or_create tid glfw_window_t;;
  log tid DEBUG "Successfully initialized window utilities";;
  log tid DEBUG "Successfully initialized keyboard utilities";;
  log tid DEBUG "Successfully initialized mouse utilities";;
  log tid INFO "Invoking application initialization section . . .";;
  temp_start tid;;
  get_or_create tid glfw_window_t;;
  show tid;;
  emit tid init_time_update_;;
  do t <- get_trace;
  log tid INFO ("Initialization successfully completed! " +:+ ESC +:+ "[1;33m("
                +:+ delta_time_ret lib t +:+ "s)");;
  do closed <- frame_loop fuel tid this;
  if closed : bool then
    remove_reference tid glfw_window_t;;
    remove_reference tid glfw_window_t;;
    ret true
  else ret false.

End WithNative.
End bootable_game.

(** ** The [bootable_game] members defined in glfw_context.cpp

    The same class is also defined at the end of glfw_context.cpp, without
    logging and without the error query. *)
Module glfw_context_cpp.
Section WithNative.

Context (lib : native).

Definition constructor (tid : thread) : M (outcome bootable_game) :=
  do created <- glfw_context.constructor lib tid 33;
  match created with
  | returned c => ret (returned (Bootable_game c))
  | thrown what => ret (thrown what)
  end.

Definition frame (tid : thread) : M unit :=
  temp_update tid;;
  swap_buffers tid.

Fixpoint frame_loop (fuel : nat) (tid : thread) (this : bootable_game) : M bool :=
  match fuel with
  | O => ret false
  | S fuel' =>
      do close <- glfwWindowShouldClose lib tid (pointer (context this));
      if decide (close ≠ GLFW_TRUE) then
        frame tid;;
        frame_loop fuel' tid this
      else ret true
  end.

Definition park_thread (fuel : nat) (tid : thread) (this : bootable_game) : M bool :=
  set tid glfw_context_t;;
  get_or_create tid glfw_context_t;;
  glfw_context.make_current tid (context this);;
  get_or_create tid glfw_window_t;;
  temp_start tid;;
  get_or_create tid glfw_window_t;;
  show tid;;
  do closed <- frame_loop fuel tid this;
  if closed : bool then
    remove_reference tid glfw_window_t;;
    remove_reference tid glfw_window_t;;
    ret true
  else ret false.

End WithNative.
End glfw_context_cpp.

(** * Vocabulary of the properties *)

(** The reference count of an entry; an absent entry counts no reference. *)
Definition refcount (reg : gmap (resource * thread) nat) (k : resource * thread) : nat :=
  default 0%nat (reg !! k).

(** The trace when the constructor asks for the window: the hints were
    reset and then set. *)
Definition hinted (tid : thread) (v : Z) (t : list (thread * call)) : list (thread * call) :=
  t ++ [(tid, glfwDefaultWindowHints_);
        (tid, glfwWindowHint_ GLFW_CONTEXT_VERSION_MAJOR (v `quot` 10));
        (tid, glfwWindowHint_ GLFW_CONTEXT_VERSION_MINOR (v `rem` 10));
        (tid, glfwWindowHint_ GLFW_VISIBLE GLFW_FALSE)].

(** The window the library hands out to this construction. *)
Definition created (lib : native) (tid : thread) (v : Z) (t : list (thread * call))
  : option GLFWwindow :=
  glfwCreateWindow_ret lib (hinted tid v t).

(** The trace when the constructor calls [glewInit]: the window was
    created and made current. *)
Definition made_current (lib : native) (tid : thread) (v : Z) (t : list (thread * call))
  : list (thread * call) :=
  hinted tid v t ++ [(tid, glfwCreateWindow_ 1366 910 (created lib tid v t));
                     (tid, glfwMakeContextCurrent_ (created lib tid v t))].

(** What [glewInit] answers to this construction. *)
Definition glew_status (lib : native) (tid : thread) (v : Z) (t : list (thread * call)) : Z :=
  glewInit_ret lib (made_current lib tid v t).

Definition version_hints (v : Z) : gmap Z Z :=
  <[GLFW_VISIBLE := GLFW_FALSE]>
    (<[GLFW_CONTEXT_VERSION_MINOR := v `rem` 10]>
       (<[GLFW_CONTEXT_VERSION_MAJOR := v `quot` 10]> ∅)).

Definition GLEW_failed : string :=
  "GLEW failed to initialize; check system requirements and libraries".

(** The counter agrees with the handles that are alive. *)
Definition counted (p : process) : Prop :=
  active_contexts (shared p) = Z.of_nat (length (handles p)).

Definition task_ret (t : task) : bool :=
  match t with
  | destroy_lambda _ => true
  | client_function _ r _ => r
  end.

Definition task_adds (t : task) : list task :=
  match t with
  | destroy_lambda _ => []
  | client_function _ _ adds => adds
  end.

(** Everything one pass of the loop body writes to the trace for task [t]. *)
Definition task_events (tid : thread) (t : task) : list (thread * call) :=
  (tid, invoke_ t)
    :: (tid, match t with
             | destroy_lambda ptr => glfwDestroyWindow_ ptr
             | client_function id _ _ => client_ id
             end)
    :: (if task_ret t then [(tid, delete_ t)] else []).

(** The tasks a trace shows as run, in order, with the thread that ran them. *)
Fixpoint invoked (t : list (thread * call)) : list (thread * task) :=
  match t with
  | [] => []
  | (tid, invoke_ first) :: t' => (tid, first) :: invoked t'
  | _ :: t' => invoked t'
  end.

(** The order in which the loop pops tasks when it starts from queue [q]. *)
Fixpoint drain_order (fuel : nat) (q : list task) : list task :=
  match fuel, q with
  | S fuel', first :: rest => first :: drain_order fuel' (rest ++ task_adds first)
  | _, _ => []
  end.

(** How many entries of a trace satisfy [f]. *)
Definition count_calls (f : thread * call → bool) (t : list (thread * call)) : nat :=
  length (List.filter f t).

Definition is_wait (e : thread * call) : bool :=
  match e.2 with glfwWaitEventsTimeout_ => true | _ => false end.

(** One pass through the body of the parking loop, the other threads
    completing [ops] during the wait. *)
Definition round (lib : native) (tid : thread) (ops : list op) (p : process) : process :=
  on_shared (exec (global_glfw_context.execute_queue tid))
    (run_ops lib ops (on_shared (exec (glfwWaitEventsTimeout tid)) p)).

Definition rounds (lib : native) (tid : thread) (others : list (list op)) (p : process)
  : process :=
  foldl (λ p ops, round lib tid ops p) p others.

(** The call of [execute_queue] after the loop. *)
Definition final_drain (tid : thread) (p : process) : process :=
  on_shared (exec (global_glfw_context.execute_queue tid)) p.

Definition is_swap (e : thread * call) : bool :=
  match e.2 with swap_buffers_ => true | _ => false end.

Definition is_window_acquire (e : thread * call) : bool :=
  match e.2 with get_or_create_ glfw_window_t => true | _ => false end.

Definition is_window_release (e : thread * call) : bool :=
  match e.2 with remove_reference_ glfw_window_t => true | _ => false end.

(** The window reports that it should close at the latest once [n] buffer
    swaps have happened. *)
Definition closes_by (lib : native) (n : nat) : Prop :=
  ∀ t, (n ≤ count_calls is_swap t)%nat → glfwWindowShouldClose_ret lib t = GLFW_TRUE.

Definition error_message (error : Z) : string :=
  "An OpenGL error has occurred; context error flag is set to " +:+ to_string error.

(** The trace after the loop test and the update callback of one frame. *)
Definition updated (lib : native) (tid : thread) (this : bootable_game)
    (t : list (thread * call)) : list (thread * call) :=
  t ++ [(tid, glfwWindowShouldClose_ (pointer (context this))
                 (glfwWindowShouldClose_ret lib t));
        (tid, temp_update_)].

(** The claim as the specification words it: the window utility is
    released exactly once and its reference count ends where it began. *)
Definition releases_window_once (result : bool * world) (w : world) (tid : thread) : Prop :=
  count_calls is_window_release (drop (length (trace w)) (trace result.2)) = 1%nat
  ∧ refcount (registry result.2) (glfw_window_t, tid) = refcount (registry w) (glfw_window_t, tid).

(** A fresh process: no hints, no current context, empty queue, counter at
    zero, empty registry, nothing traced. *)
Definition start : world := World ∅ ∅ [] 0 ∅ [].

(** A library that creates every window, initialises the loading layer,
    reports an invalid-operation error during the first frame only, and
    wants the window closed after two buffer swaps. *)
Definition friendly : native :=
  Native (λ t, Some (length t))
         (λ _, GLEW_OK)
         (λ t, if decide (2 ≤ count_calls is_swap t)%nat then GLFW_TRUE else GLFW_FALSE)
         (λ t, if decide (count_calls is_swap t = 0)%nat then 1282 else GL_NO_ERROR)
         (λ _, "0.5"%string).

(** A library that cannot provide the requested version: no window is
    created, and the loading layer then finds no context. *)
Definition unsupported : native :=
  Native (λ _, NULL) (λ _, 1) (λ _, GLFW_TRUE) (λ _, GL_NO_ERROR) (λ _, "0"%string).

Definition script : list op :=
  [new_glfw_context 1 43; new_glfw_context 2 33; delete_glfw_context 2 0].

(** One handle alive, constructed by thread 1. *)
Definition one_context : process := run_ops friendly [new_glfw_context 1 43] (Process [] start).

(** Three destruction tasks pending. *)
Definition three_pending : world :=
  World ∅ ∅ [destroy_lambda (Some 1%nat); destroy_lambda (Some 2%nat); destroy_lambda (Some 3%nat)] 0 ∅ [].

(** Thread 1 has window 7 current. *)
Definition seven_current : world := World ∅ {[1%nat := 7%nat]} [] 1 ∅ [].

Definition game : bootable_game := Bootable_game (Glfw_context (Some 3%nat)).

(** * Vocabulary of the further properties *)

(** The tasks a trace shows as deleted, in order. *)
Definition deleted (t : list (thread * call)) : list task :=
  omap (λ e, match e.2 with delete_ first => Some first | _ => None end) t.

(** The windows a trace shows as created, in order. *)
Definition created_windows (t : list (thread * call)) : list GLFWwindow :=
  omap (λ e, match e.2 with glfwCreateWindow_ _ _ r => r | _ => None end) t.

(** The windows a trace shows as destroyed, in order. *)
Definition destroyed_windows (t : list (thread * call)) : list GLFWwindow :=
  omap (λ e, match e.2 with glfwDestroyWindow_ r => r | _ => None end) t.

(** The threads that called the native destroy function, call by call. *)
Definition destroyers (t : list (thread * call)) : list thread :=
  omap (λ e, match e.2 with glfwDestroyWindow_ _ => Some e.1 | _ => None end) t.

(** The windows that pending destruction tasks will destroy. *)
Definition queued_windows (q : list task) : list GLFWwindow :=
  omap (λ t, match t with destroy_lambda r => r | _ => None end) q.

(** The windows held by live handles. *)
Definition live_windows (hs : list glfw_context) : list GLFWwindow :=
  omap pointer hs.

(** Handles destroyed one after the other, each by the given thread. *)
Definition destroy_all (l : list (thread * glfw_context)) (w : world) : world :=
  foldl (λ w d, exec (glfw_context.destructor d.1 d.2) w) w l.

(** What one frame writes to the trace when the loop test answered [f.1]
    and the error query answered [f.2]. *)
Definition frame_events (tid : thread) (ptr : option GLFWwindow) (f : Z * Z)
  : list (thread * call) :=
  [(tid, glfwWindowShouldClose_ ptr f.1); (tid, temp_update_); (tid, glGetError_ f.2)]
    ++ (if decide (f.2 ≠ GL_NO_ERROR) then [(tid, log_ ERROR (error_message f.2))] else [])
    ++ [(tid, swap_buffers_)].

(** The state in which the worker leaves the process when its
    [park_thread] returns, apart from the trace. *)
Definition parked (tid : thread) (this : bootable_game) (w : world) (t : list (thread * call))
  : world :=
  World (hints w)
        (match pointer (context this) with
         | Some a => <[tid := a]> (current w)
         | None => delete tid (current w)
         end)
        (thread_queue w) (active_contexts w)
        (released (glfw_window_t, tid)
           (released (glfw_window_t, tid)
              (acquired (glfw_window_t, tid)
                 (acquired (glfw_window_t, tid)
                    (acquired (glfw_context_t, tid)
                       (installed (glfw_context_t, tid) (registry w)))))))
        t.

(** Two tasks that each add a destruction task, and one that adds none. *)
Definition spawning : world :=
  World ∅ ∅ [client_function 1 true [destroy_lambda (Some 5%nat)];
             destroy_lambda (Some 6%nat);
             client_function 2 false [destroy_lambda (Some 7%nat); destroy_lambda (Some 8%nat)]]
        0 ∅ [].

(** What the workers do while the affinity thread is parked: a second
    context is constructed, then both contexts are destroyed. *)
Definition session : list (list op) :=
  [[new_glfw_context 2 43];
   [delete_glfw_context 1 0];
   [delete_glfw_context 2 0]].

(** A library that creates the window but whose loading layer does not
    initialise. *)
Definition broken_loader : native :=
  Native (λ t, Some (length t)) (λ _, 1) (λ _, GLFW_TRUE) (λ _, GL_NO_ERROR)
         (λ _, "0"%string).

(** Two handles, with the threads that destroy them. *)
Definition two_handles : list (thread * glfw_context) :=
  [(1%nat, Glfw_context (Some 5%nat)); (2%nat, Glfw_context (Some 6%nat))].

(** The destruction of a handle, as opposed to a construction or an
    enqueue. *)
Definition is_destruction (o : op) : Prop :=
  match o with
  | delete_glfw_context _ _ => True
  | _ => False
  end.

(** What the workers do when none of them destroys a handle. *)
Definition no_destruction : list (list op) :=
  [[new_glfw_context 2 43]; [enqueue (destroy_lambda (Some 9%nat))]; []].

(** * The process, statement by statement

    The operations above are whole routines.  Between two statements of the
    affinity thread's [park_thread] the other threads can do anything, and
    a destructor is seen from outside in two steps: its body takes one from
    the counter (line 96), and only then the member [pointer] is released,
    which enqueues the destruction task (lines 7-23).  A handle in between
    is called dying. *)

(** The body of [glfw_context::~glfw_context()] alone. *)
Definition destructor_body : M unit :=
  λ w, set_active_contexts (active_contexts w - 1) w.

Record system := System {
  live : list glfw_context;             (* constructed, destructor not begun *)
  dying : list (thread * glfw_context); (* destructor body done, member not released yet *)
  state : world
}.

(** What another thread completes in one go. *)
Inductive act :=
| constructs (tid : thread) (context_version : Z) (* new glfw_context(v), lines 69-92 *)
| begins_destruction (tid : thread) (i : nat)     (* line 96, for the i-th live handle *)
| releases_pointer (j : nat)                      (* lines 7-23, for the j-th dying handle *)
| adds (t : task).                                (* thread_queue.add(t) *)

(** Apply a change of the shared state; the handles stay. *)
Definition on_state (f : world → world) (s : system) : system :=
  System (live s) (dying s) (f (state s)).

(** What the affinity thread has done, statement by statement: a test of
    the loop condition with the counter value it read, a call of
    [glfwWaitEventsTimeout], a call of [execute_queue] with the tasks it
    ran. *)
Inductive did :=
| tested (read : Z)
| waited
| drained (ran : list task).

(** The tasks run between two states of the trace. *)
Definition ran_between (w w' : world) : list task :=
  (invoked (drop (length (trace w)) (trace w'))).*2.

(** What the other threads do during one pass through the loop body. *)
Record pass := Pass {
  after_test : list act;   (* between the loop test (line 55) and the wait (line 57) *)
  after_wait : list act;   (* during the wait and up to execute_queue (line 59) *)
  after_queue : list act   (* between execute_queue and the next loop test *)
}.

(** What the other threads do once the loop is left. *)
Record leave := Leave {
  before_final : list act; (* between the last loop test and execute_queue (line 62) *)
  after_final : list act   (* between execute_queue and the return *)
}.

Module stepwise.
Section WithNative.

Context (lib : native).

(** One step of another thread.  Where the handle named does not exist
    nothing happens. *)
Definition run_act (a : act) (s : system) : system :=
  match a with
  | constructs tid context_version =>
      match glfw_context.constructor lib tid context_version (state s) with
      | (returned this, w) => System (live s ++ [this]) (dying s) w
      | (thrown _, w) => System (live s) (dying s) w
      end
  | begins_destruction tid i =>
      match live s !! i with
      | Some this =>
          System (delete i (live s)) (dying s ++ [(tid, this)]) (exec destructor_body (state s))
      | None => s
      end
  | releases_pointer j =>
      match dying s !! j with
      | Some (tid, this) =>
          System (live s) (delete j (dying s))
                 (exec (pointer_release tid (pointer this)) (state s))
      | None => s
      end
  | adds t => on_state (exec (add t)) s
  end.

Definition run_acts (l : list act) (s : system) : system :=
  foldl (λ s a, run_act a s) s l.

(** One call of [execute_queue] by thread [tid], with what it ran. *)
Definition execute_queue (tid : thread) (s : system) : did * system :=
  let w' := exec (global_glfw_context.execute_queue tid) (state s) in
  (drained (ran_between (state s) w'), on_state (λ _, w') s).

(** [global_glfw_context::park_thread()], run by the affinity thread [tid],
    with the other threads acting between its statements: [passes] says
    what they do during each pass through the loop body, [exit] what they
    do once the loop is left.  The result carries what the thread did, in
    order.  When [passes] is used up nobody else will ever act again; if
    the counter is then still positive the loop cannot end and the result
    is [None]. *)
Fixpoint park_thread (tid : thread) (passes : list pass) (exit : leave) (s : system)
  : option (list did * system) :=
  if 0 <? active_contexts (state s) then
    match passes with
    | [] => None
    | g :: passes' =>
        let s1 := run_acts (after_test g) s in
        let s2 := on_state (exec (glfwWaitEventsTimeout tid)) s1 in
        let s3 := run_acts (after_wait g) s2 in
        let s4 := execute_queue tid s3 in
        let s5 := run_acts (after_queue g) s4.2 in
        match park_thread tid passes' exit s5 with
        | Some (log, s') =>
            Some (tested (active_contexts (state s)) :: waited :: s4.1 :: log, s')
        | None => None
        end
    end
  else
    let s1 := run_acts (before_final exit) s in
    let s2 := execute_queue tid s1 in
    let s3 := run_acts (after_final exit) s2.2 in
    Some ([tested (active_contexts (state s)); s2.1], s3).

End WithNative.
End stepwise.

(** * Vocabulary of the statement-by-statement properties *)

(** The state in which the loop condition is tested after one more pass. *)
Definition pass_body (lib : native) (tid : thread) (g : pass) (s : system) : system :=
  stepwise.run_acts lib (after_queue g)
    (stepwise.execute_queue tid
       (stepwise.run_acts lib (after_wait g)
          (on_state (exec (glfwWaitEventsTimeout tid))
             (stepwise.run_acts lib (after_test g) s)))).2.

(** The state in which the loop condition is tested after these passes. *)
Definition at_test (lib : native) (tid : thread) (passes : list pass) (s : system) : system :=
  foldl (λ s g, pass_body lib tid g s) s passes.

(** What one pass through the loop body adds to the log: the test that
    read [x.1], the wait, the call of [execute_queue] that ran [x.2]. *)
Definition pass_log (x : Z * list task) : list did :=
  [tested x.1; waited; drained x.2].

(** The claim as the specification words it: [park_thread] does not return
    while the counter is greater than zero. *)
Definition returns_only_at_zero (lib : native) (tid : thread) (passes : list pass)
    (exit : leave) (s : system) : Prop :=
  ∀ log s', stepwise.park_thread lib tid passes exit s = Some (log, s') →
            active_contexts (state s') ≤ 0.





(** What the worker of bootable_game.cpp writes to the trace before its
    frame loop, when it starts from trace [t]. *)
Definition startup (lib : native) (tid : thread) (this : bootable_game)
    (t : list (thread * call)) : list (thread * call) :=
  let before :=
    [(tid, log_ INFO "Branched primary application thread for graphical context");
     (tid, set_ glfw_context_t);
     (tid, get_or_create_ glfw_context_t);
     (tid, glfwMakeContextCurrent_ (pointer (context this)));
     (tid, log_ INFO "Initializing additional window and user input devices . . .");
     (tid, get_or_create_ glfw_window_t);
     (tid, log_ DEBUG "Successfully initialized window utilities");
     (tid, log_ DEBUG "Successfully initialized keyboard utilities");
     (tid, log_ DEBUG "Successfully initialized mouse utilities");
     (tid, log_ INFO "Invoking application initialization section . . .");
     (tid, temp_start_);
     (tid, get_or_create_ glfw_window_t);
     (tid, show_);
     (tid, init_time_update_)] in
  before ++ [(tid, log_ INFO ("Initialization successfully completed! " +:+ ESC +:+ "[1;33m("
                              +:+ delta_time_ret lib (t ++ before) +:+ "s)"))].

(** What the worker of glfw_context.cpp writes to the trace before its
    frame loop. *)
Definition legacy_startup (tid : thread) (this : bootable_game) : list (thread * call) :=
  [(tid, set_ glfw_context_t);
   (tid, get_or_create_ glfw_context_t);
   (tid, glfwMakeContextCurrent_ (pointer (context this)));
   (tid, get_or_create_ glfw_window_t);
   (tid, temp_start_);
   (tid, get_or_create_ glfw_window_t);
   (tid, show_)].

(** What one frame of the loop of glfw_context.cpp writes to the trace when
    the loop test answered [c]. *)
Definition legacy_frame_events (tid : thread) (ptr : option GLFWwindow) (c : Z)
  : list (thread * call) :=
  [(tid, glfwWindowShouldClose_ ptr c); (tid, temp_update_); (tid, swap_buffers_)].

(** What the worker does with the window utility, as the code has it.  The
    trace it adds is the start-up, whole frames, the loop test that answers
    true, and then, as its last two entries, the two releases; the
    start-up holds the two acquisitions; nothing is released before the
    loop is left; the reference count ends where it began. *)
Definition releases_on_loop_exit (tid : thread) (ptr : option GLFWwindow)
    (before loop : list (thread * call)) (result : bool * world) (w : world) : Prop :=
  result.1 = true
  ∧ trace result.2
    = trace w ++ before ++ loop
        ++ [(tid, glfwWindowShouldClose_ ptr GLFW_TRUE);
            (tid, remove_reference_ glfw_window_t);
            (tid, remove_reference_ glfw_window_t)]
  ∧ count_calls is_window_acquire before = 2%nat
  ∧ count_calls is_window_acquire loop = 0%nat
  ∧ count_calls is_window_release (before ++ loop) = 0%nat
  ∧ refcount (registry result.2) (glfw_window_t, tid) = refcount (registry w) (glfw_window_t, tid).

(** One handle alive, constructed by thread 1. *)
Definition one_alive : system :=
  stepwise.run_acts friendly [constructs 1 43] (System [] [] start).

(** The handle is destroyed during the wait, and the counter reaches zero. *)
Definition destroyed_in_wait : list pass :=
  [Pass [] [begins_destruction 1 0; releases_pointer 0] []].

(** After the loop test has read zero, thread 2 constructs a context. *)
Definition late_construction : leave := Leave [constructs 2 43] [].


(** The whole-routine model inside this one: nothing is dying, every
    destructor runs to its end in one go, and the other threads act only
    while the affinity thread waits. *)
Definition as_system (p : process) : system := System (handles p) [] (shared p).

Definition as_acts (o : op) : list act :=
  match o with
  | new_glfw_context tid context_version => [constructs tid context_version]
  | delete_glfw_context tid i => [begins_destruction tid i; releases_pointer 0]
  | enqueue t => [adds t]
  end.

Definition in_wait (ops : list op) : pass := Pass [] (flat_map as_acts ops) [].

Definition nothing_more : leave := Leave [] [].

(** * Properties *)

(** ** What the registry operations do to the table *)

Lemma refcount_acquired reg k k' :
  refcount (acquired k reg) k' = if decide (k = k') then S (refcount reg k') else refcount reg k'.
Proof.
  unfold refcount, acquired. rewrite lookup_insert. by destruct (decide (k = k')) as [->|].
Qed.

Lemma refcount_installed reg k k' : refcount (installed k reg) k' = refcount reg k'.
Proof.
  unfold refcount, installed. rewrite lookup_insert. by destruct (decide (k = k')) as [->|].
Qed.

Lemma refcount_released reg k k' :
  refcount (released k reg) k' =
  if decide (k = k') then Nat.pred (refcount reg k') else refcount reg k'.
Proof.
  unfold refcount, released. destruct (decide (k = k')) as [->|Hne].
  - destruct (reg !! k') as [[|[|n]]|] eqn:Hk; cbn [default Nat.pred].
    + by rewrite lookup_delete_eq.
    + by rewrite lookup_delete_eq.
    + by rewrite lookup_insert_eq.
    + by rewrite Hk.
  - destruct (reg !! k) as [[|[|n]]|]; try done.
    + by rewrite lookup_delete_ne.
    + by rewrite lookup_delete_ne.
    + by rewrite lookup_insert_ne.
Qed.

(** ** Running the monad one step at a time *)

Section Steps.

Context (lib : native) (tid : thread) (w : world).

Lemma bind_run {A B} (m : M A) (k : A → M B) :
  bind m k w = k (m w).1 (m w).2.
Proof. unfold bind. by destruct (m w). Qed.

Lemma ret_run {A} (a : A) : ret a w = (a, w).
Proof. reflexivity. Qed.

Lemma emit_run c :
  emit tid c w = (tt, World (hints w) (current w) (thread_queue w) (active_contexts w)
                            (registry w) (trace w ++ [(tid, c)])).
Proof. reflexivity. Qed.

Lemma glfwDefaultWindowHints_run :
  glfwDefaultWindowHints tid w =
  (tt, World ∅ (current w) (thread_queue w) (active_contexts w) (registry w)
             (trace w ++ [(tid, glfwDefaultWindowHints_)])).
Proof. reflexivity. Qed.

Lemma glfwWindowHint_run hint value :
  glfwWindowHint tid hint value w =
  (tt, World (<[hint := value]> (hints w)) (current w) (thread_queue w) (active_contexts w)
             (registry w) (trace w ++ [(tid, glfwWindowHint_ hint value)])).
Proof. reflexivity. Qed.

Lemma glfwCreateWindow_run width height :
  glfwCreateWindow lib tid width height w =
  (glfwCreateWindow_ret lib (trace w),
   World (hints w) (current w) (thread_queue w) (active_contexts w) (registry w)
         (trace w ++ [(tid, glfwCreateWindow_ width height (glfwCreateWindow_ret lib (trace w)))])).
Proof. reflexivity. Qed.

Lemma glfwMakeContextCurrent_run window :
  glfwMakeContextCurrent tid window w =
  (tt, World (hints w)
             (match window with
              | Some a => <[tid := a]> (current w)
              | None => delete tid (current w)
              end)
             (thread_queue w) (active_contexts w) (registry w)
             (trace w ++ [(tid, glfwMakeContextCurrent_ window)])).
Proof. reflexivity. Qed.

Lemma glewInit_run :
  glewInit lib tid w =
  (glewInit_ret lib (trace w),
   World (hints w) (current w) (thread_queue w) (active_contexts w) (registry w)
         (trace w ++ [(tid, glewInit_ (glewInit_ret lib (trace w)))])).
Proof. reflexivity. Qed.

Lemma glfwTerminate_run :
  glfwTerminate tid w =
  (tt, World (hints w) (current w) (thread_queue w) (active_contexts w) (registry w)
             (trace w ++ [(tid, glfwTerminate_)])).
Proof. reflexivity. Qed.

Lemma glfwDestroyWindow_run window :
  glfwDestroyWindow tid window w =
  (tt, World (hints w) (current w) (thread_queue w) (active_contexts w) (registry w)
             (trace w ++ [(tid, glfwDestroyWindow_ window)])).
Proof. reflexivity. Qed.

Lemma glfwWaitEventsTimeout_run :
  glfwWaitEventsTimeout tid w =
  (tt, World (hints w) (current w) (thread_queue w) (active_contexts w) (registry w)
             (trace w ++ [(tid, glfwWaitEventsTimeout_)])).
Proof. reflexivity. Qed.

Lemma glfwWindowShouldClose_run window :
  glfwWindowShouldClose lib tid window w =
  (glfwWindowShouldClose_ret lib (trace w),
   World (hints w) (current w) (thread_queue w) (active_contexts w) (registry w)
         (trace w ++ [(tid, glfwWindowShouldClose_ window
                              (glfwWindowShouldClose_ret lib (trace w)))])).
Proof. reflexivity. Qed.

Lemma glGetError_run :
  glGetError lib tid w =
  (glGetError_ret lib (trace w),
   World (hints w) (current w) (thread_queue w) (active_contexts w) (registry w)
         (trace w ++ [(tid, glGetError_ (glGetError_ret lib (trace w)))])).
Proof. reflexivity. Qed.

Lemma add_run t :
  add t w = (tt, World (hints w) (current w) (thread_queue w ++ [t]) (active_contexts w)
                       (registry w) (trace w)).
Proof. reflexivity. Qed.

Lemma get_or_create_run r :
  get_or_create tid r w =
  (tt, World (hints w) (current w) (thread_queue w) (active_contexts w)
             (acquired (r, tid) (registry w)) (trace w ++ [(tid, get_or_create_ r)])).
Proof. reflexivity. Qed.

Lemma set_run r :
  set tid r w =
  (tt, World (hints w) (current w) (thread_queue w) (active_contexts w)
             (installed (r, tid) (registry w)) (trace w ++ [(tid, set_ r)])).
Proof. reflexivity. Qed.

Lemma remove_reference_run r :
  remove_reference tid r w =
  (tt, World (hints w) (current w) (thread_queue w) (active_contexts w)
             (released (r, tid) (registry w)) (trace w ++ [(tid, remove_reference_ r)])).
Proof. reflexivity. Qed.

Lemma log_run l message :
  log tid l message w =
  (tt, World (hints w) (current w) (thread_queue w) (active_contexts w) (registry w)
             (trace w ++ [(tid, log_ l message)])).
Proof. reflexivity. Qed.

Lemma destroy_glfw_window_run ptr :
  destroy_glfw_window tid ptr w =
  (tt, World (hints w) (delete tid (current w)) (thread_queue w ++ [destroy_lambda ptr])
             (active_contexts w) (registry w)
             (trace w ++ [(tid, glfwMakeContextCurrent_ NULL); (tid, glfwPostEmptyEvent_)])).
Proof.
  unfold destroy_glfw_window, bind, glfwMakeContextCurrent, add, glfwPostEmptyEvent, emit,
    set_current, set_thread_queue; cbn. by rewrite <- app_assoc.
Qed.

End Steps.

Create Rewrite HintDb run.
#[local] Hint Rewrite @ret_run emit_run glfwDefaultWindowHints_run glfwWindowHint_run
  glfwCreateWindow_run glfwMakeContextCurrent_run glewInit_run glfwTerminate_run
  glfwDestroyWindow_run glfwWaitEventsTimeout_run glfwWindowShouldClose_run
  glGetError_run add_run get_or_create_run set_run remove_reference_run log_run
  destroy_glfw_window_run : run.

Ltac step :=
  first [ (progress autorewrite with run)
        | (progress cbn [fst snd hints current thread_queue active_contexts registry
                         trace pointer handles shared context])
        | rewrite bind_run ].

Ltac run := repeat step; rewrite <- ?app_assoc; cbn [app].

(** ** The context handle *)

Lemma pointer_release_run tid ptr w :
  pointer_release tid ptr w =
  (tt, match ptr with
       | Some a =>
           World (hints w) (delete tid (current w))
                 (thread_queue w ++ [destroy_lambda (Some a)])
                 (active_contexts w) (registry w)
                 (trace w ++ [(tid, glfwMakeContextCurrent_ NULL); (tid, glfwPostEmptyEvent_)])
       | None => w
       end).
Proof. destruct ptr; [apply destroy_glfw_window_run | reflexivity]. Qed.

Lemma constructor_throws lib tid v w :
  glew_status lib tid v (trace w) ≠ GLEW_OK →
  glfw_context.constructor lib tid v w =
  (thrown GLEW_failed,
   (pointer_release tid (created lib tid v (trace w))
      (World (version_hints v)
             (match created lib tid v (trace w) with
              | Some a => <[tid := a]> (current w)
              | None => delete tid (current w)
              end)
             (thread_queue w) (active_contexts w) (registry w)
             (made_current lib tid v (trace w)
                ++ [(tid, glewInit_ (glew_status lib tid v (trace w)));
                    (tid, glfwTerminate_)]))).2).
Proof.
  unfold glew_status, made_current, created, hinted, version_hints. intros Hs.
  unfold glfw_context.constructor, glfw_context.make_current. repeat step.
  rewrite <- !app_assoc in *. cbn [app] in *.
  destruct (decide _) as [_|Hok]; [|contradiction].
  repeat step. rewrite <- !app_assoc. reflexivity.
Qed.

Lemma constructor_returns lib tid v w :
  glew_status lib tid v (trace w) = GLEW_OK →
  glfw_context.constructor lib tid v w =
  (returned (Glfw_context (created lib tid v (trace w))),
   World (version_hints v) (delete tid (current w)) (thread_queue w)
         (active_contexts w + 1) (registry w)
         (made_current lib tid v (trace w)
            ++ [(tid, glewInit_ GLEW_OK); (tid, glfwMakeContextCurrent_ NULL)])).
Proof.
  unfold glew_status, made_current, created, hinted, version_hints. intros Hs.
  unfold glfw_context.constructor, glfw_context.make_current. repeat step.
  rewrite <- !app_assoc in *. cbn [app] in *. rewrite Hs.
  destruct (decide _) as [Hne|_]; [contradiction|].
  repeat step. unfold set_active_contexts. repeat step.
  rewrite <- !app_assoc. cbn [app]. f_equal. f_equal.
  destruct (glfwCreateWindow_ret lib _); [apply delete_insert_eq | apply delete_delete_eq].
Qed.

Lemma destructor_run tid this w :
  glfw_context.destructor tid this w =
  (tt, match pointer this with
       | Some a =>
           World (hints w) (delete tid (current w))
                 (thread_queue w ++ [destroy_lambda (Some a)])
                 (active_contexts w - 1) (registry w)
                 (trace w ++ [(tid, glfwMakeContextCurrent_ NULL); (tid, glfwPostEmptyEvent_)])
       | None =>
           World (hints w) (current w) (thread_queue w) (active_contexts w - 1)
                 (registry w) (trace w)
       end).
Proof.
  unfold glfw_context.destructor, set_active_contexts. repeat step.
  rewrite pointer_release_run. by destruct (pointer this).
Qed.

Lemma run_op_counted lib o p : counted p → counted (run_op lib o p).
Proof.
  unfold counted. intros Hp. destruct o as [tid v|tid i|t]; cbn [run_op].
  - destruct (decide (glew_status lib tid v (trace (shared p)) = GLEW_OK)) as [Hs|Hs].
    + rewrite (constructor_returns _ _ _ _ Hs). cbn [shared handles active_contexts].
      rewrite length_app. cbn [length]. lia.
    + rewrite (constructor_throws _ _ _ _ Hs), pointer_release_run.
      cbn [snd shared handles]. by destruct (created lib tid v _).
  - destruct (handles p !! i) as [this|] eqn:Hi; [|done].
    unfold exec. rewrite destructor_run. cbn [snd shared handles].
    apply lookup_lt_Some in Hi. rewrite length_delete by eauto using lookup_lt_is_Some_2.
    destruct (pointer this); cbn [active_contexts]; lia.
  - done.
Qed.

Lemma run_ops_counted lib ops p : counted p → counted (run_ops lib ops p).
Proof.
  unfold run_ops. revert p. induction ops as [|o ops IH]; intros p Hp; [done|].
  cbn [foldl]. apply IH. by apply run_op_counted.
Qed.

Lemma constructor_active_contexts lib tid v w :
  active_contexts (glfw_context.constructor lib tid v w).2 =
  match (glfw_context.constructor lib tid v w).1 with
  | returned _ => active_contexts w + 1
  | thrown _ => active_contexts w
  end.
Proof.
  destruct (decide (glew_status lib tid v (trace w) = GLEW_OK)) as [Hs|Hs].
  - by rewrite (constructor_returns _ _ _ _ Hs).
  - rewrite (constructor_throws _ _ _ _ Hs), pointer_release_run. cbn [fst snd].
    by destruct (created lib tid v _).
Qed.

(** C1. Whatever the threads do, in whatever order (constructions that
    return, constructions that throw, destructions, plain enqueues), the
    live-context counter equals the number of handles that were constructed
    and not yet destroyed, after every prefix of the sequence.  A
    construction that returns adds exactly one to the counter and a
    destruction takes exactly one from it. *)
Theorem active_contexts_counts_live_handles lib ops p :
  counted p →
  (∀ n, counted (run_ops lib (take n ops) p))
  ∧ (∀ tid v this w', glfw_context.constructor lib tid v (shared p) = (returned this, w') →
       active_contexts w' = active_contexts (shared p) + 1)
  ∧ (∀ tid this, active_contexts (exec (glfw_context.destructor tid this) (shared p))
       = active_contexts (shared p) - 1).
Proof.
  intros Hp. split; [|split].
  - intros n. by apply run_ops_counted.
  - intros tid v this w' Hc. pose proof (constructor_active_contexts lib tid v (shared p)) as H.
    by rewrite Hc in H.
  - intros tid this. unfold exec. rewrite destructor_run. by destruct (pointer this).
Qed.

(** C4. Destroying a handle does not call the native destroy function.
    The destructor takes exactly one from the counter.  The deleter, for
    whatever pointer it is given, clears the calling thread's current
    context, appends exactly one task to the queue and posts an empty
    event, and these two native calls are all it adds to the trace.  The
    appended task, whenever a thread runs it, calls the native destroy
    function on the saved pointer and reports that it is to be deleted.
    For a handle that holds a window the destruction as a whole is the
    decrement followed by the deleter on that window. *)
Theorem destruction_is_deferred tid this w :
  active_contexts (exec (glfw_context.destructor tid this) w) = active_contexts w - 1
  ∧ (∀ ptr,
       exec (destroy_glfw_window tid ptr) w =
       World (hints w) (delete tid (current w)) (thread_queue w ++ [destroy_lambda ptr])
             (active_contexts w) (registry w)
             (trace w ++ [(tid, glfwMakeContextCurrent_ NULL); (tid, glfwPostEmptyEvent_)]))
  ∧ (∀ ptr tid' w',
       invoke tid' (destroy_lambda ptr) w' =
       (true, World (hints w') (current w') (thread_queue w') (active_contexts w')
                    (registry w')
                    (trace w' ++ [(tid', invoke_ (destroy_lambda ptr));
                                  (tid', glfwDestroyWindow_ ptr)])))
  ∧ (∀ a, pointer this = Some a →
       exec (glfw_context.destructor tid this) w =
       World (hints w) (delete tid (current w))
             (thread_queue w ++ [destroy_lambda (Some a)])
             (active_contexts w - 1) (registry w)
             (trace w ++ [(tid, glfwMakeContextCurrent_ NULL); (tid, glfwPostEmptyEvent_)])).
Proof.
  split; [|split; [|split]].
  - unfold exec. rewrite destructor_run. by destruct (pointer this).
  - intros ptr. unfold exec. by rewrite destroy_glfw_window_run.
  - intros ptr tid' w'. unfold invoke. run. reflexivity.
  - intros a Ha. unfold exec. rewrite destructor_run. by rewrite Ha.
Qed.

(** C5. When the function-loading layer does not initialise (which is also
    how a version the library cannot provide shows up: no window is
    created, so no context is current when [glewInit] runs), the
    constructor throws the initialisation error and the live-context
    counter is what it was before. *)
Theorem failed_construction_keeps_counter lib tid v w :
  glew_status lib tid v (trace w) ≠ GLEW_OK →
  (glfw_context.constructor lib tid v w).1 = thrown GLEW_failed
  ∧ active_contexts (glfw_context.constructor lib tid v w).2 = active_contexts w.
Proof.
  intros Hs. rewrite constructor_active_contexts.
  rewrite (constructor_throws _ _ _ _ Hs). by cbn [fst].
Qed.

(** C7. For every requested version [v] the constructor leaves the major
    hint at [v / 10], the minor hint at [v % 10] (truncating division) and
    the visibility hint off, and it asks for the window under exactly these
    hints; it then makes the new context current on its own thread before
    it calls [glewInit].  When it returns, the last thing it did to the
    thread was to make no context current, and the thread has none. *)
Theorem constructor_hints_and_currentness lib tid v w :
  let result := glfw_context.constructor lib tid v w in
  hints result.2 !! GLFW_CONTEXT_VERSION_MAJOR = Some (v `quot` 10)
  ∧ hints result.2 !! GLFW_CONTEXT_VERSION_MINOR = Some (v `rem` 10)
  ∧ hints result.2 !! GLFW_VISIBLE = Some GLFW_FALSE
  ∧ (∃ rest, trace result.2 =
       trace w ++ [(tid, glfwDefaultWindowHints_);
                   (tid, glfwWindowHint_ GLFW_CONTEXT_VERSION_MAJOR (v `quot` 10));
                   (tid, glfwWindowHint_ GLFW_CONTEXT_VERSION_MINOR (v `rem` 10));
                   (tid, glfwWindowHint_ GLFW_VISIBLE GLFW_FALSE);
                   (tid, glfwCreateWindow_ 1366 910 (created lib tid v (trace w)));
                   (tid, glfwMakeContextCurrent_ (created lib tid v (trace w)));
                   (tid, glewInit_ (glew_status lib tid v (trace w)))] ++ rest)
  ∧ (∀ this, result.1 = returned this →
       pointer this = created lib tid v (trace w)
       ∧ current result.2 !! tid = None
       ∧ trace result.2 =
           made_current lib tid v (trace w)
             ++ [(tid, glewInit_ GLEW_OK); (tid, glfwMakeContextCurrent_ NULL)]).
Proof.
  intros result. subst result.
  assert (Hh : ∀ m : gmap Z Z, m = version_hints v →
            m !! GLFW_CONTEXT_VERSION_MAJOR = Some (v `quot` 10)
            ∧ m !! GLFW_CONTEXT_VERSION_MINOR = Some (v `rem` 10)
            ∧ m !! GLFW_VISIBLE = Some GLFW_FALSE).
  { intros m ->. unfold version_hints. split; [|split].
    - rewrite lookup_insert_ne by done. rewrite lookup_insert_ne by done.
      apply lookup_insert_eq.
    - rewrite lookup_insert_ne by done. apply lookup_insert_eq.
    - apply lookup_insert_eq. }
  destruct (decide (glew_status lib tid v (trace w) = GLEW_OK)) as [Hs|Hs].
  - rewrite (constructor_returns _ _ _ _ Hs). cbn [fst snd hints trace current].
    destruct (Hh _ eq_refl) as (? & ? & ?).
    split; [done|]. split; [done|]. split; [done|]. split.
    + exists [(tid, glfwMakeContextCurrent_ NULL)].
      unfold made_current, hinted. rewrite Hs, <- !app_assoc. reflexivity.
    + intros this [= <-]. split; [done|]. split; [apply lookup_delete_eq | done].
  - rewrite (constructor_throws _ _ _ _ Hs), pointer_release_run. cbn [fst snd].
    assert (Hw : ∀ w0 : world, hints
       (match created lib tid v (trace w) with
        | Some a => World (hints w0) (delete tid (current w0))
                      (thread_queue w0 ++ [destroy_lambda (Some a)])
                      (active_contexts w0) (registry w0)
                      (trace w0 ++ [(tid, glfwMakeContextCurrent_ NULL);
                                    (tid, glfwPostEmptyEvent_)])
        | None => w0 end) = hints w0) by (intros; by destruct (created _ _ _ _)).
    rewrite Hw. cbn [hints]. destruct (Hh _ eq_refl) as (? & ? & ?).
    split; [done|]. split; [done|]. split; [done|]. split; [|done].
    exists ((tid, glfwTerminate_) ::
            match created lib tid v (trace w) with
            | Some _ => [(tid, glfwMakeContextCurrent_ NULL); (tid, glfwPostEmptyEvent_)]
            | None => []
            end).
    unfold made_current, hinted.
    destruct (created lib tid v (trace w)); cbn [trace]; rewrite <- !app_assoc; reflexivity.
Qed.

(** C10. The deleter gives up the calling thread's current context without
    looking at which context that is: afterwards the thread has none,
    whatever was current and whatever pointer is being destroyed, and no
    other thread's current context is touched. *)
Theorem deleter_clears_current_context tid ptr w :
  current (exec (destroy_glfw_window tid ptr) w) !! tid = None
  ∧ ∀ tid', tid' ≠ tid →
      current (exec (destroy_glfw_window tid ptr) w) !! tid' = current w !! tid'.
Proof.
  unfold exec. rewrite destroy_glfw_window_run. cbn [snd current]. split.
  - apply lookup_delete_eq.
  - intros tid' Hne. by apply lookup_delete_ne.
Qed.

(** ** The deferred task queue *)

Lemma queue_weight_app q1 q2 :
  queue_weight (q1 ++ q2) = (queue_weight q1 + queue_weight q2)%nat.
Proof.
  unfold queue_weight. induction q1 as [|t q1 IH]; cbn [app foldr]; [done|].
  rewrite IH. lia.
Qed.

Lemma task_weight_adds t : task_weight t = S (queue_weight (task_adds t)).
Proof. by destruct t. Qed.

Lemma add_all_run adds w :
  foldr (λ t k, add t;; k) (ret tt) adds w =
  (tt, World (hints w) (current w) (thread_queue w ++ adds) (active_contexts w)
             (registry w) (trace w)).
Proof.
  revert w. induction adds as [|t adds IH]; intros w; cbn [foldr].
  - rewrite app_nil_r. by destruct w.
  - run. rewrite IH. run. reflexivity.
Qed.

Lemma invoke_run tid first w :
  invoke tid first w =
  (task_ret first,
   World (hints w) (current w) (thread_queue w ++ task_adds first) (active_contexts w)
         (registry w)
         (trace w ++ [(tid, invoke_ first);
                      (tid, match first with
                            | destroy_lambda ptr => glfwDestroyWindow_ ptr
                            | client_function id _ _ => client_ id
                            end)])).
Proof.
  unfold invoke. destruct first as [ptr|id r adds]; run.
  - by rewrite app_nil_r.
  - rewrite add_all_run. run. reflexivity.
Qed.

Lemma execute_queue_loop_run tid fuel w :
  (queue_weight (thread_queue w) < fuel)%nat →
  global_glfw_context.execute_queue_loop fuel tid w =
  (true, World (hints w) (current w) [] (active_contexts w) (registry w)
               (trace w ++ flat_map (task_events tid) (drain_order fuel (thread_queue w)))).
Proof.
  revert w. induction fuel as [|fuel IH]; intros w Hlt; [lia|].
  cbn [global_glfw_context.execute_queue_loop]. rewrite bind_run.
  unfold get_size at 1 2. cbn [fst snd].
  destruct (thread_queue w) as [|first rest] eqn:Hq.
  - cbn [length drain_order flat_map]. rewrite app_nil_r.
    destruct w; cbn in *; by subst.
  - replace (0 <? Z.of_nat (length (first :: rest))) with true
      by (symmetry; apply Z.ltb_lt; cbn [length]; lia).
    rewrite bind_run. unfold remove at 1 2. rewrite Hq. cbn [fst snd set_thread_queue].
    rewrite bind_run, invoke_run. cbn [fst snd]. rewrite bind_run.
    cbn [drain_order flat_map].
    change (task_events tid first) with
      ((tid, invoke_ first)
         :: (tid, match first with
                  | destroy_lambda ptr => glfwDestroyWindow_ ptr
                  | client_function id _ _ => client_ id
                  end)
         :: (if task_ret first then [(tid, delete_ first)] else [])).
    cbn [queue_weight foldr] in Hlt. fold (queue_weight rest) in Hlt.
    rewrite task_weight_adds in Hlt.
    destruct (task_ret first); run; (rewrite IH;
      [ cbn [hints current thread_queue active_contexts registry trace];
        rewrite <- ?app_assoc; reflexivity
      | cbn [thread_queue]; rewrite queue_weight_app; lia ]).
Qed.

Lemma drain_order_pending fuel q :
  (queue_weight q < fuel)%nat →
  ∃ extra, drain_order fuel q = q ++ extra
           ∧ (Forall (λ t, task_adds t = []) q → extra = [])
           ∧ Forall (λ t, ∃ t', t' ∈ q ++ extra ∧ t ∈ task_adds t') extra.
Proof.
  revert q. induction fuel as [|fuel IH]; intros q Hlt; [lia|].
  destruct q as [|first rest].
  - exists []. by repeat split.
  - cbn [drain_order]. cbn [queue_weight foldr] in Hlt. fold (queue_weight rest) in Hlt.
    rewrite task_weight_adds in Hlt.
    destruct (IH (rest ++ task_adds first)) as (extra & -> & Hnone & Hfrom).
    { rewrite queue_weight_app. lia. }
    exists (task_adds first ++ extra). split; [|split].
    + cbn [app]. by rewrite <- app_assoc.
    + intros Hq. apply Forall_cons in Hq as [Hf Hq]. rewrite Hf in *.
      rewrite app_nil_r in Hnone. by rewrite (Hnone Hq).
    + apply Forall_app. split.
      * apply Forall_forall. intros t Ht. exists first. split; [left | done].
      * eapply Forall_impl; [exact Hfrom|]. cbn beta. intros t (t' & Hin & Ht).
        exists t'. split; [|done]. right. by rewrite <- app_assoc in Hin.
Qed.

Lemma invoked_task_events tid q :
  invoked (flat_map (task_events tid) q) = (λ t, (tid, t)) <$> q.
Proof.
  induction q as [|t q IH]; [done|]. cbn [flat_map fmap list_fmap].
  unfold task_events at 1. cbn [app invoked].
  destruct t as [ptr|id r adds]; cbn [task_ret app invoked].
  - by rewrite IH.
  - destruct r; cbn [app invoked]; by rewrite IH.
Qed.

Lemma execute_queue_run tid w :
  global_glfw_context.execute_queue tid w =
  (tt, World (hints w) (current w) [] (active_contexts w) (registry w)
             (trace w ++ flat_map (task_events tid)
                           (drain_order (S (queue_weight (thread_queue w))) (thread_queue w)))).
Proof.
  unfold global_glfw_context.execute_queue. rewrite bind_run.
  rewrite execute_queue_loop_run by lia. reflexivity.
Qed.

(** C3. One call of [execute_queue] ends with the loop leaving through its
    condition and the queue empty.  The tasks it ran are, in this order,
    the tasks that were pending at the call, first in first out, each
    once, followed only by tasks that were added by a task run in this
    same call (none when no pending task adds any); for each of them the
    trace shows the call, its effect, and the deletion when it returned
    true. *)
Theorem execute_queue_runs_pending_in_order tid w :
  ∃ extra,
    global_glfw_context.execute_queue_loop (S (queue_weight (thread_queue w))) tid w =
      (true, exec (global_glfw_context.execute_queue tid) w)
    ∧ exec (global_glfw_context.execute_queue tid) w =
        World (hints w) (current w) [] (active_contexts w) (registry w)
              (trace w ++ flat_map (task_events tid) (thread_queue w ++ extra))
    ∧ invoked (flat_map (task_events tid) (thread_queue w ++ extra)) =
        ((λ t, (tid, t)) <$> thread_queue w) ++ ((λ t, (tid, t)) <$> extra)
    ∧ Forall (λ t, ∃ t', t' ∈ thread_queue w ++ extra ∧ t ∈ task_adds t') extra
    ∧ (Forall (λ t, task_adds t = []) (thread_queue w) → extra = []).
Proof.
  destruct (drain_order_pending (S (queue_weight (thread_queue w))) (thread_queue w))
    as (extra & Hd & Hnone & Hfrom); [lia|].
  exists extra. unfold exec. rewrite execute_queue_run, execute_queue_loop_run by lia.
  rewrite Hd. cbn [snd]. repeat split; try done.
  by rewrite invoked_task_events, fmap_app.
Qed.

(** ** The parking loop of the affinity thread *)

Lemma count_calls_app f t1 t2 :
  count_calls f (t1 ++ t2) = (count_calls f t1 + count_calls f t2)%nat.
Proof. unfold count_calls. by rewrite List.filter_app, length_app. Qed.

Lemma task_events_no_wait tid q : count_calls is_wait (flat_map (task_events tid) q) = 0%nat.
Proof.
  induction q as [|t q IH]; [done|]. cbn [flat_map]. rewrite count_calls_app, IH.
  destruct t as [ptr|id [] adds]; reflexivity.
Qed.

Lemma execute_queue_active_contexts tid w :
  active_contexts (exec (global_glfw_context.execute_queue tid) w) = active_contexts w.
Proof. unfold exec. by rewrite execute_queue_run. Qed.

Lemma park_thread_unfold lib tid others p :
  global_glfw_context.park_thread lib tid others p =
  if 0 <? active_contexts (shared p) then
    match others with
    | [] => None
    | ops :: others' => global_glfw_context.park_thread lib tid others' (round lib tid ops p)
    end
  else Some (final_drain tid p).
Proof. by destruct others. Qed.

Lemma park_thread_blocked lib tid others p :
  (∀ j, (j ≤ length others)%nat →
        0 < active_contexts (shared (rounds lib tid (take j others) p))) →
  global_glfw_context.park_thread lib tid others p = None.
Proof.
  revert p. induction others as [|ops others IH]; intros p Hpos.
  - pose proof (Hpos 0%nat ltac:(done)) as H0. cbn in H0. rewrite park_thread_unfold.
    by replace (0 <? active_contexts (shared p)) with true by (symmetry; apply Z.ltb_lt; lia).
  - pose proof (Hpos 0%nat ltac:(cbn; lia)) as H0. rewrite take_0 in H0. cbn in H0.
    rewrite park_thread_unfold.
    replace (0 <? active_contexts (shared p)) with true by (symmetry; apply Z.ltb_lt; lia).
    apply IH. intros j Hj. apply (Hpos (S j)). cbn. lia.
Qed.

Lemma park_thread_returned lib tid others p p' :
  global_glfw_context.park_thread lib tid others p = Some p' →
  ∃ k, (k ≤ length others)%nat
       ∧ (∀ j, (j < k)%nat → 0 < active_contexts (shared (rounds lib tid (take j others) p)))
       ∧ active_contexts (shared (rounds lib tid (take k others) p)) ≤ 0
       ∧ p' = final_drain tid (rounds lib tid (take k others) p).
Proof.
  revert p. induction others as [|ops others IH]; intros p; rewrite park_thread_unfold;
    destruct (0 <? active_contexts (shared p)) eqn:Hc; try done.
  - intros [= <-]. apply Z.ltb_ge in Hc. exists 0%nat. cbn.
    split; [lia|]. split; [intros; lia|]. by split.
  - intros H. apply Z.ltb_lt in Hc. destruct (IH _ H) as (k & Hk & Hpos & Hzero & ->).
    exists (S k). cbn [length take rounds foldl]. split; [lia|]. split; [|done].
    intros [|j] Hj; [by rewrite take_0|]. cbn [take foldl]. apply Hpos. lia.
  - intros [= <-]. apply Z.ltb_ge in Hc. exists 0%nat. rewrite take_0. cbn.
    split; [lia|]. split; [intros; lia|]. by split.
Qed.

(** C9. Called while the counter is not positive, [park_thread] does not
    wait at all: it returns the state reached by one [execute_queue], in
    which the queue is empty and every task that was pending has been run,
    in order, on the affinity thread. *)
Theorem park_thread_drains_without_live_context lib tid others p :
  active_contexts (shared p) ≤ 0 →
  ∃ extra,
    global_glfw_context.park_thread lib tid others p =
      Some (Process (handles p) (exec (global_glfw_context.execute_queue tid) (shared p)))
    ∧ exec (global_glfw_context.execute_queue tid) (shared p) =
        World (hints (shared p)) (current (shared p)) [] (active_contexts (shared p))
              (registry (shared p))
              (trace (shared p)
                 ++ flat_map (task_events tid) (thread_queue (shared p) ++ extra))
    ∧ count_calls is_wait
        (flat_map (task_events tid) (thread_queue (shared p) ++ extra)) = 0%nat
    ∧ invoked (flat_map (task_events tid) (thread_queue (shared p) ++ extra)) =
        (λ t, (tid, t)) <$> (thread_queue (shared p) ++ extra)
    ∧ (Forall (λ t, task_adds t = []) (thread_queue (shared p)) → extra = []).
Proof.
  intros Hz.
  destruct (drain_order_pending (S (queue_weight (thread_queue (shared p))))
              (thread_queue (shared p))) as (extra & Hd & Hnone & _); [lia|].
  exists extra. split; [|split; [|split; [|split]]].
  - rewrite park_thread_unfold.
    by replace (0 <? active_contexts (shared p)) with false by (symmetry; apply Z.ltb_ge; lia).
  - unfold exec. by rewrite execute_queue_run, Hd.
  - apply task_events_no_wait.
  - apply invoked_task_events.
  - exact Hnone.
Qed.

(** ** The parking loop, statement by statement *)

Lemma ran_between_execute_queue tid w :
  ran_between w (exec (global_glfw_context.execute_queue tid) w)
  = drain_order (S (queue_weight (thread_queue w))) (thread_queue w).
Proof.
  unfold ran_between, exec. rewrite execute_queue_run. cbn [snd trace].
  rewrite drop_app_length, invoked_task_events, <- list_fmap_compose. apply list_fmap_id.
Qed.

Lemma stepwise_execute_queue_run tid s :
  stepwise.execute_queue tid s =
  (drained (drain_order (S (queue_weight (thread_queue (state s)))) (thread_queue (state s))),
   System (live s) (dying s)
     (World (hints (state s)) (current (state s)) [] (active_contexts (state s))
            (registry (state s))
            (trace (state s)
               ++ flat_map (task_events tid)
                    (drain_order (S (queue_weight (thread_queue (state s))))
                                 (thread_queue (state s)))))).
Proof.
  unfold stepwise.execute_queue. rewrite ran_between_execute_queue.
  unfold on_state, exec. by rewrite execute_queue_run.
Qed.

Lemma stepwise_park_thread_unfold lib tid passes exit s :
  stepwise.park_thread lib tid passes exit s =
  if 0 <? active_contexts (state s) then
    match passes with
    | [] => None
    | g :: passes' =>
        match stepwise.park_thread lib tid passes' exit (pass_body lib tid g s) with
        | Some (log, s') =>
            Some (tested (active_contexts (state s)) :: waited
                    :: (stepwise.execute_queue tid
                          (stepwise.run_acts lib (after_wait g)
                             (on_state (exec (glfwWaitEventsTimeout tid))
                                (stepwise.run_acts lib (after_test g) s)))).1 :: log, s')
        | None => None
        end
    end
  else
    Some ([tested (active_contexts (state s));
           (stepwise.execute_queue tid (stepwise.run_acts lib (before_final exit) s)).1],
          stepwise.run_acts lib (after_final exit)
            (stepwise.execute_queue tid (stepwise.run_acts lib (before_final exit) s)).2).
Proof. by destruct passes. Qed.

Lemma stepwise_returned lib tid exit passes : ∀ s log s',
  stepwise.park_thread lib tid passes exit s = Some (log, s') →
  ∃ k l, (k ≤ length passes)%nat ∧ length l = k ∧ Forall (λ x, 0 < x.1) l
         ∧ active_contexts (state (at_test lib tid (take k passes) s)) ≤ 0
         ∧ log = flat_map pass_log l
                   ++ [tested (active_contexts (state (at_test lib tid (take k passes) s)));
                       (stepwise.execute_queue tid
                          (stepwise.run_acts lib (before_final exit)
                             (at_test lib tid (take k passes) s))).1]
         ∧ s' = stepwise.run_acts lib (after_final exit)
                  (stepwise.execute_queue tid
                     (stepwise.run_acts lib (before_final exit)
                        (at_test lib tid (take k passes) s))).2.
Proof.
  induction passes as [|g passes IH]; intros s log s'; rewrite stepwise_park_thread_unfold;
    destruct (0 <? active_contexts (state s)) eqn:Hc; try done.
  - intros [= <- <-]. apply Z.ltb_ge in Hc. exists 0%nat, []. cbn.
    split; [lia|]. split; [done|]. split; [constructor|]. by split.
  - destruct (stepwise.park_thread lib tid passes exit (pass_body lib tid g s))
      as [[log0 s0]|] eqn:Hrec; [|done].
    rewrite stepwise_execute_queue_run. cbn [fst].
    intros [= <- <-]. apply Z.ltb_lt in Hc.
    destruct (IH _ _ _ Hrec) as (k & l & Hk & Hl & Hpos & Hz & -> & ->).
    eexists (S k), ((active_contexts (state s), _) :: l).
    cbn [length take at_test foldl flat_map pass_log fst snd app].
    split; [lia|]. split; [by rewrite Hl|]. split; [by constructor|]. split; [done|].
    split; reflexivity.
  - intros [= <- <-]. apply Z.ltb_ge in Hc. exists 0%nat, []. rewrite take_0. cbn.
    split; [lia|]. split; [done|]. split; [constructor|]. by split.
Qed.

Lemma stepwise_returns lib tid exit passes : ∀ s k,
  (k ≤ length passes)%nat →
  (∀ j, (j < k)%nat → 0 < active_contexts (state (at_test lib tid (take j passes) s))) →
  active_contexts (state (at_test lib tid (take k passes) s)) ≤ 0 →
  is_Some (stepwise.park_thread lib tid passes exit s).
Proof.
  induction passes as [|g passes IH]; intros s k Hk Hpos Hz;
    rewrite stepwise_park_thread_unfold.
  - assert (k = 0%nat) as -> by (cbn in Hk; lia). cbn in Hz.
    by replace (0 <? active_contexts (state s)) with false by (symmetry; apply Z.ltb_ge; lia).
  - destruct k as [|k].
    + rewrite take_0 in Hz. cbn in Hz.
      by replace (0 <? active_contexts (state s)) with false
        by (symmetry; apply Z.ltb_ge; lia).
    + pose proof (Hpos 0%nat ltac:(lia)) as H0. rewrite take_0 in H0. cbn in H0.
      replace (0 <? active_contexts (state s)) with true by (symmetry; apply Z.ltb_lt; lia).
      destruct (IH (pass_body lib tid g s) k) as [[log s'] ->]; [cbn in Hk; lia| |done|done].
      intros j Hj. apply (Hpos (S j)). lia.
Qed.

Lemma stepwise_blocked lib tid exit passes : ∀ s,
  (∀ j, (j ≤ length passes)%nat →
        0 < active_contexts (state (at_test lib tid (take j passes) s))) →
  stepwise.park_thread lib tid passes exit s = None.
Proof.
  induction passes as [|g passes IH]; intros s Hpos; rewrite stepwise_park_thread_unfold.
  - pose proof (Hpos 0%nat ltac:(done)) as H0. cbn in H0.
    by replace (0 <? active_contexts (state s)) with true by (symmetry; apply Z.ltb_lt; lia).
  - pose proof (Hpos 0%nat ltac:(cbn; lia)) as H0. rewrite take_0 in H0. cbn in H0.
    replace (0 <? active_contexts (state s)) with true by (symmetry; apply Z.ltb_lt; lia).
    rewrite IH; [done|]. intros j Hj. apply (Hpos (S j)). cbn. lia.
Qed.

Lemma run_acts_app lib l1 l2 s :
  stepwise.run_acts lib (l1 ++ l2) s = stepwise.run_acts lib l2 (stepwise.run_acts lib l1 s).
Proof. apply foldl_app. Qed.

Lemma run_op_as_acts lib o p :
  stepwise.run_acts lib (as_acts o) (as_system p) = as_system (run_op lib o p).
Proof.
  destruct o as [tid v|tid i|t]; cbn [as_acts stepwise.run_acts foldl stepwise.run_act run_op].
  - unfold as_system at 1. cbn [state live dying].
    destruct (glfw_context.constructor lib tid v (shared p)) as [[this|what] w]; reflexivity.
  - change (live (as_system p)) with (handles p).
    change (dying (as_system p)) with (@nil (thread * glfw_context)).
    change (state (as_system p)) with (shared p).
    destruct (handles p !! i) as [this|]; [|reflexivity].
    cbn [dying app lookup list_lookup live state delete list_delete].
    unfold as_system. cbn [handles shared]. reflexivity.
  - reflexivity.
Qed.

Lemma run_ops_as_acts lib ops : ∀ p,
  stepwise.run_acts lib (flat_map as_acts ops) (as_system p) = as_system (run_ops lib ops p).
Proof.
  induction ops as [|o ops IH]; intros p; [done|].
  cbn [flat_map]. by rewrite run_acts_app, run_op_as_acts, IH.
Qed.

Lemma round_as_pass lib tid ops p :
  pass_body lib tid (in_wait ops) (as_system p) = as_system (round lib tid ops p).
Proof.
  unfold pass_body, in_wait. cbn [after_test after_wait after_queue].
  change (stepwise.run_acts lib [] (as_system p)) with (as_system p).
  change (on_state (exec (glfwWaitEventsTimeout tid)) (as_system p))
    with (as_system (on_shared (exec (glfwWaitEventsTimeout tid)) p)).
  rewrite run_ops_as_acts. reflexivity.
Qed.

(** The whole-routine model of [park_thread] is the statement-by-statement
    one in which the other threads act only during the wait and every
    destructor runs to its end at once. *)
Lemma park_thread_as_stepwise lib tid others : ∀ p,
  snd <$> stepwise.park_thread lib tid (in_wait <$> others) nothing_more (as_system p)
  = as_system <$> global_glfw_context.park_thread lib tid others p.
Proof.
  induction others as [|ops others IH]; intros p;
    rewrite stepwise_park_thread_unfold, park_thread_unfold; cbn [fmap list_fmap];
    change (state (as_system p)) with (shared p);
    destruct (0 <? active_contexts (shared p)); try done.
  rewrite round_as_pass. specialize (IH (round lib tid ops p)).
  destruct (stepwise.park_thread lib tid (in_wait <$> others) nothing_more
              (as_system (round lib tid ops p))) as [[log s']|];
    destruct (global_glfw_context.park_thread lib tid others (round lib tid ops p));
    cbn in IH |- *; congruence.
Qed.

(** C2, as the code has it.  Whatever the other threads do between the
    statements of [park_thread]: if it returns, then every test of the
    loop condition but the last read a positive counter and was followed by
    exactly one wait and one call of [execute_queue]; the last test read a
    counter that was not positive and was followed by exactly one call of
    [execute_queue] and nothing else, no wait and no further test.  That
    last call ran, in order, every task that was in the queue when it
    began, and left the queue empty; what the other threads did after the
    last test, such as constructing a context, is part of the state at the
    return but did not delay it.  Conversely, as soon as a test reads a
    counter that is not positive the routine returns, and as long as every
    test reads a positive counter it does not. *)
Theorem park_thread_returns_after_reading_zero lib tid passes exit s :
  (∀ log s', stepwise.park_thread lib tid passes exit s = Some (log, s') →
     ∃ k l extra,
       (k ≤ length passes)%nat ∧ length l = k ∧ Forall (λ x, 0 < x.1) l
       ∧ active_contexts (state (at_test lib tid (take k passes) s)) ≤ 0
       ∧ log = flat_map pass_log l
                 ++ [tested (active_contexts (state (at_test lib tid (take k passes) s)));
                     drained
                       (thread_queue
                          (state (stepwise.run_acts lib (before_final exit)
                                    (at_test lib tid (take k passes) s))) ++ extra)]
       ∧ s' = (let s1 := stepwise.run_acts lib (before_final exit)
                           (at_test lib tid (take k passes) s) in
               stepwise.run_acts lib (after_final exit)
                 (System (live s1) (dying s1)
                    (World (hints (state s1)) (current (state s1)) []
                           (active_contexts (state s1)) (registry (state s1))
                           (trace (state s1)
                              ++ flat_map (task_events tid)
                                   (thread_queue (state s1) ++ extra)))))
       ∧ (Forall (λ t, task_adds t = [])
            (thread_queue (state (stepwise.run_acts lib (before_final exit)
                                    (at_test lib tid (take k passes) s)))) →
          extra = []))
  ∧ (∀ k, (k ≤ length passes)%nat →
       (∀ j, (j < k)%nat →
          0 < active_contexts (state (at_test lib tid (take j passes) s))) →
       active_contexts (state (at_test lib tid (take k passes) s)) ≤ 0 →
       is_Some (stepwise.park_thread lib tid passes exit s))
  ∧ ((∀ j, (j ≤ length passes)%nat →
        0 < active_contexts (state (at_test lib tid (take j passes) s))) →
     stepwise.park_thread lib tid passes exit s = None).
Proof.
  split; [|split].
  - intros log s' Hp. destruct (stepwise_returned _ _ _ _ _ _ _ Hp)
      as (k & l & Hk & Hl & Hpos & Hz & -> & ->).
    set (s1 := stepwise.run_acts lib (before_final exit) (at_test lib tid (take k passes) s)).
    destruct (drain_order_pending (S (queue_weight (thread_queue (state s1))))
                (thread_queue (state s1))) as (extra & Hd & Hnone & _); [lia|].
    exists k, l, extra. rewrite stepwise_execute_queue_run, Hd. cbn [fst snd].
    split; [done|]. split; [done|]. split; [done|]. split; [done|]. by split.
  - intros k. apply stepwise_returns.
  - apply stepwise_blocked.
Qed.

(** C2, as the specification words it, fails: the last loop test reads a
    counter of zero, thread 2 then constructs a context, and [park_thread]
    returns while the counter is greater than zero. *)
Lemma park_thread_returns_with_live_context :
  ¬ returns_only_at_zero friendly 0 destroyed_in_wait late_construction one_alive.
Proof.
  intros H.
  destruct (stepwise.park_thread friendly 0 destroyed_in_wait late_construction one_alive)
    as [[log s']|] eqn:E; [|vm_compute in E; discriminate].
  specialize (H log s' E). vm_compute in E. injection E as _ <-.
  vm_compute in H. by apply H.
Qed.

(** ** The worker's frame loop *)

Lemma frame_run lib tid w :
  bootable_game.frame lib tid w =
  (tt, World (hints w) (current w) (thread_queue w) (active_contexts w) (registry w)
         (trace w
            ++ [(tid, temp_update_);
                (tid, glGetError_ (glGetError_ret lib (trace w ++ [(tid, temp_update_)])))]
            ++ (if decide (glGetError_ret lib (trace w ++ [(tid, temp_update_)]) ≠ GL_NO_ERROR)
                then [(tid, log_ ERROR
                         (error_message
                            (glGetError_ret lib (trace w ++ [(tid, temp_update_)]))))]
                else [])
            ++ [(tid, swap_buffers_)])).
Proof.
  unfold bootable_game.frame, temp_update, swap_buffers. repeat step.
  destruct (decide _); repeat step; rewrite <- ?app_assoc; reflexivity.
Qed.

Lemma frame_loop_unfold lib fuel tid this w :
  bootable_game.frame_loop lib (S fuel) tid this w =
  if decide (glfwWindowShouldClose_ret lib (trace w) ≠ GLFW_TRUE) then
    bootable_game.frame_loop lib fuel tid this
      (exec (bootable_game.frame lib tid)
         (exec (glfwWindowShouldClose lib tid (pointer (context this))) w))
  else (true, exec (glfwWindowShouldClose lib tid (pointer (context this))) w).
Proof.
  cbn [bootable_game.frame_loop]. rewrite bind_run. unfold exec.
  rewrite glfwWindowShouldClose_run. cbn [fst snd].
  destruct (decide _); [|reflexivity]. by rewrite bind_run.
Qed.

Lemma frame_loop_closes lib n fuel tid this w :
  closes_by lib n →
  (n - count_calls is_swap (trace w) < fuel)%nat →
  ∃ new,
    bootable_game.frame_loop lib fuel tid this w =
      (true, World (hints w) (current w) (thread_queue w) (active_contexts w) (registry w)
                   (trace w ++ new))
    ∧ count_calls is_window_acquire new = 0%nat
    ∧ count_calls is_window_release new = 0%nat.
Proof.
  intros Hclose. revert w. induction fuel as [|fuel IH]; intros w Hlt; [lia|].
  rewrite frame_loop_unfold. unfold exec. rewrite glfwWindowShouldClose_run. cbn [snd].
  destruct (decide _) as [Hopen|Hshut].
  - rewrite frame_run. cbn [snd hints current thread_queue active_contexts registry trace].
    assert (Hn : (count_calls is_swap (trace w) < n)%nat).
    { destruct (decide (n ≤ count_calls is_swap (trace w))%nat) as [Hle|]; [|lia].
      by specialize (Hclose _ Hle). }
    match goal with |- context [bootable_game.frame_loop lib fuel tid this ?w1] =>
      destruct (IH w1) as (new & -> & Ha & Hr) end.
    { cbn [trace]. rewrite !count_calls_app.
      destruct (decide (glGetError_ret lib _ ≠ GL_NO_ERROR)); cbn; lia. }
    cbn [hints current thread_queue active_contexts registry trace].
    eexists. split; [rewrite <- !app_assoc; reflexivity|].
    rewrite !count_calls_app, Ha, Hr.
    destruct (decide (glGetError_ret lib _ ≠ GL_NO_ERROR)); done.
  - eexists. split; [reflexivity|]. done.
Qed.

Lemma legacy_frame_loop_closes lib n fuel tid this w :
  closes_by lib n →
  (n - count_calls is_swap (trace w) < fuel)%nat →
  ∃ new,
    glfw_context_cpp.frame_loop lib fuel tid this w =
      (true, World (hints w) (current w) (thread_queue w) (active_contexts w) (registry w)
                   (trace w ++ new))
    ∧ count_calls is_window_acquire new = 0%nat
    ∧ count_calls is_window_release new = 0%nat.
Proof.
  intros Hclose. revert w. induction fuel as [|fuel IH]; intros w Hlt; [lia|].
  cbn [glfw_context_cpp.frame_loop]. rewrite bind_run, glfwWindowShouldClose_run.
  cbn [fst snd]. destruct (decide _) as [Hopen|Hshut].
  - unfold glfw_context_cpp.frame, temp_update, swap_buffers. repeat step.
    assert (Hn : (count_calls is_swap (trace w) < n)%nat).
    { destruct (decide (n ≤ count_calls is_swap (trace w))%nat) as [Hle|]; [|lia].
      by specialize (Hclose _ Hle). }
    match goal with |- context [glfw_context_cpp.frame_loop lib fuel tid this ?w1] =>
      destruct (IH w1) as (new & -> & Ha & Hr) end.
    { cbn [trace]. rewrite !count_calls_app. cbn. lia. }
    cbn [hints current thread_queue active_contexts registry trace].
    eexists. split; [rewrite <- !app_assoc; reflexivity|].
    by rewrite !count_calls_app, Ha, Hr.
  - eexists. split; [reflexivity|]. done.
Qed.

Lemma frame_events_swaps tid ptr f : count_calls is_swap (frame_events tid ptr f) = 1%nat.
Proof. unfold frame_events. destruct (decide _); reflexivity. Qed.

Lemma frame_loop_shape lib n fuel tid this w :
  closes_by lib n →
  (n - count_calls is_swap (trace w) < fuel)%nat →
  ∃ frames,
    bootable_game.frame_loop lib fuel tid this w =
      (true, World (hints w) (current w) (thread_queue w) (active_contexts w) (registry w)
                   (trace w
                      ++ flat_map (frame_events tid (pointer (context this))) frames
                      ++ [(tid, glfwWindowShouldClose_ (pointer (context this)) GLFW_TRUE)]))
    ∧ Forall (λ f, f.1 ≠ GLFW_TRUE) frames
    ∧ (length frames ≤ n - count_calls is_swap (trace w))%nat.
Proof.
  intros Hclose. revert w. induction fuel as [|fuel IH]; intros w Hlt; [lia|].
  rewrite frame_loop_unfold. unfold exec. rewrite glfwWindowShouldClose_run. cbn [snd].
  destruct (decide _) as [Hopen|Hshut].
  - rewrite frame_run. cbn [snd hints current thread_queue active_contexts registry trace].
    assert (Hn : (count_calls is_swap (trace w) < n)%nat).
    { destruct (decide (n ≤ count_calls is_swap (trace w))%nat) as [Hle|]; [|lia].
      by specialize (Hclose _ Hle). }
    rewrite <- !app_assoc. cbn [app].
    set (c := glfwWindowShouldClose_ret lib (trace w)) in *.
    set (e := glGetError_ret lib
                (trace w ++ [(tid, glfwWindowShouldClose_ (pointer (context this)) c);
                             (tid, temp_update_)])).
    assert (Ht : ∀ t, t ++ (tid, glfwWindowShouldClose_ (pointer (context this)) c)
                        :: (tid, temp_update_) :: (tid, glGetError_ e)
                        :: (if decide (e ≠ GL_NO_ERROR)
                            then [(tid, log_ ERROR (error_message e))] else [])
                        ++ [(tid, swap_buffers_)]
                      = t ++ frame_events tid (pointer (context this)) (c, e)) by done.
    rewrite Ht.
    match goal with |- context [bootable_game.frame_loop lib fuel tid this ?w1] =>
      destruct (IH w1) as (frames & -> & Hf & Hlen) end.
    { cbn [trace]. rewrite count_calls_app, frame_events_swaps. lia. }
    cbn [hints current thread_queue active_contexts registry trace] in *.
    rewrite count_calls_app, frame_events_swaps in Hlen.
    exists ((c, e) :: frames). split; [|split].
    + cbn [flat_map]. by rewrite <- !app_assoc.
    + by constructor.
    + cbn [length]. lia.
  - exists []. split; [|split; [constructor | cbn; lia]].
    cbn [flat_map app]. destruct (decide (glfwWindowShouldClose_ret lib (trace w) = GLFW_TRUE))
      as [->|]; [done|contradiction].
Qed.

Lemma legacy_frame_loop_shape lib n fuel tid this w :
  closes_by lib n →
  (n - count_calls is_swap (trace w) < fuel)%nat →
  ∃ frames,
    glfw_context_cpp.frame_loop lib fuel tid this w =
      (true, World (hints w) (current w) (thread_queue w) (active_contexts w) (registry w)
                   (trace w
                      ++ flat_map (legacy_frame_events tid (pointer (context this))) frames
                      ++ [(tid, glfwWindowShouldClose_ (pointer (context this)) GLFW_TRUE)]))
    ∧ Forall (λ c, c ≠ GLFW_TRUE) frames.
Proof.
  intros Hclose. revert w. induction fuel as [|fuel IH]; intros w Hlt; [lia|].
  cbn [glfw_context_cpp.frame_loop]. rewrite bind_run, glfwWindowShouldClose_run.
  cbn [fst snd]. destruct (decide _) as [Hopen|Hshut].
  - unfold glfw_context_cpp.frame, temp_update, swap_buffers. repeat step.
    assert (Hn : (count_calls is_swap (trace w) < n)%nat).
    { destruct (decide (n ≤ count_calls is_swap (trace w))%nat) as [Hle|]; [|lia].
      by specialize (Hclose _ Hle). }
    match goal with |- context [glfw_context_cpp.frame_loop lib fuel tid this ?w1] =>
      destruct (IH w1) as (frames & -> & Hf) end.
    { cbn [trace]. rewrite !count_calls_app. cbn. lia. }
    cbn [hints current thread_queue active_contexts registry trace].
    exists (glfwWindowShouldClose_ret lib (trace w) :: frames). split; [|by constructor].
    cbn [flat_map]. unfold legacy_frame_events at 2. by rewrite <- !app_assoc.
  - exists []. split; [|constructor].
    cbn [flat_map app]. destruct (decide (glfwWindowShouldClose_ret lib (trace w) = GLFW_TRUE))
      as [->|]; [done|contradiction].
Qed.

Lemma frame_events_registry tid ptr frames :
  count_calls is_window_acquire (flat_map (frame_events tid ptr) frames) = 0%nat
  ∧ count_calls is_window_release (flat_map (frame_events tid ptr) frames) = 0%nat.
Proof.
  induction frames as [|f frames [IHa IHr]]; [done|]. cbn [flat_map].
  rewrite !count_calls_app, IHa, IHr. unfold frame_events.
  by destruct (decide (f.2 ≠ GL_NO_ERROR)).
Qed.

Lemma legacy_frame_events_registry tid ptr frames :
  count_calls is_window_acquire (flat_map (legacy_frame_events tid ptr) frames) = 0%nat
  ∧ count_calls is_window_release (flat_map (legacy_frame_events tid ptr) frames) = 0%nat.
Proof.
  induction frames as [|f frames [IHa IHr]]; [done|]. cbn [flat_map].
  by rewrite !count_calls_app, IHa, IHr.
Qed.

(** C8. When the window is not to be closed and the error query after the
    update callback answers a non-zero code, the loop does not stop there
    and nothing is thrown.  The pass writes, after the error query, one
    error line that carries the code and then the buffer swap, changes
    nothing but the trace, and the loop goes on from there with its next
    test.  When the window is to be closed later on, the state the loop
    returns shows that error line and that swap, then the loop's further
    frames, up to the loop test that answers true, which alone ends the
    loop. *)
Theorem graphics_error_is_logged_and_loop_continues lib n fuel tid this w :
  glfwWindowShouldClose_ret lib (trace w) ≠ GLFW_TRUE →
  glGetError_ret lib (updated lib tid this (trace w)) ≠ GL_NO_ERROR →
  bootable_game.frame_loop lib (S fuel) tid this w =
    bootable_game.frame_loop lib fuel tid this
      (World (hints w) (current w) (thread_queue w) (active_contexts w) (registry w)
         (updated lib tid this (trace w)
            ++ [(tid, glGetError_ (glGetError_ret lib (updated lib tid this (trace w))));
                (tid, log_ ERROR
                        (error_message (glGetError_ret lib (updated lib tid this (trace w)))));
                (tid, swap_buffers_)]))
  ∧ (closes_by lib n →
     (n - count_calls is_swap (trace w) ≤ fuel)%nat →
     ∃ frames,
       bootable_game.frame_loop lib (S fuel) tid this w =
         (true, World (hints w) (current w) (thread_queue w) (active_contexts w) (registry w)
                  (updated lib tid this (trace w)
                     ++ [(tid, glGetError_ (glGetError_ret lib (updated lib tid this (trace w))));
                         (tid, log_ ERROR
                                 (error_message
                                    (glGetError_ret lib (updated lib tid this (trace w)))));
                         (tid, swap_buffers_)]
                     ++ flat_map (frame_events tid (pointer (context this))) frames
                     ++ [(tid, glfwWindowShouldClose_ (pointer (context this)) GLFW_TRUE)]))
       ∧ Forall (λ f, f.1 ≠ GLFW_TRUE) frames).
Proof.
  intros Hopen Herr.
  assert (Hstep : bootable_game.frame_loop lib (S fuel) tid this w =
    bootable_game.frame_loop lib fuel tid this
      (World (hints w) (current w) (thread_queue w) (active_contexts w) (registry w)
         (updated lib tid this (trace w)
            ++ [(tid, glGetError_ (glGetError_ret lib (updated lib tid this (trace w))));
                (tid, log_ ERROR
                        (error_message (glGetError_ret lib (updated lib tid this (trace w)))));
                (tid, swap_buffers_)]))).
  { rewrite frame_loop_unfold. destruct (decide _) as [_|]; [|contradiction].
    unfold exec. rewrite glfwWindowShouldClose_run. cbn [snd]. rewrite frame_run.
    cbn [snd hints current thread_queue active_contexts registry trace].
    unfold updated in *. rewrite <- !app_assoc in *. cbn [app] in *.
    destruct (decide _) as [_|]; [|contradiction]. reflexivity. }
  split; [exact Hstep|]. intros Hclose Hlt. rewrite Hstep.
  assert (Hn : (count_calls is_swap (trace w) < n)%nat).
  { destruct (decide (n ≤ count_calls is_swap (trace w))%nat) as [Hle|]; [|lia].
    by specialize (Hclose _ Hle). }
  match goal with |- context [bootable_game.frame_loop lib fuel tid this ?w1] =>
    destruct (frame_loop_shape lib n fuel tid this w1 Hclose) as (frames & -> & Hf & _) end.
  { cbn [trace]. unfold updated. rewrite !count_calls_app. cbn. lia. }
  cbn [hints current thread_queue active_contexts registry trace].
  exists frames. split; [|done]. by rewrite <- !app_assoc.
Qed.

(** ** The worker's use of the registry *)

Lemma window_refcount_balanced reg tid :
  refcount
    (released (glfw_window_t, tid)
       (released (glfw_window_t, tid)
          (acquired (glfw_window_t, tid)
             (acquired (glfw_window_t, tid)
                (acquired (glfw_context_t, tid) (installed (glfw_context_t, tid) reg))))))
    (glfw_window_t, tid)
  = refcount reg (glfw_window_t, tid).
Proof.
  rewrite !refcount_released, !refcount_acquired, refcount_installed.
  rewrite !decide_True by done. by rewrite decide_False by done.
Qed.

Lemma startup_acquires lib tid this t :
  count_calls is_window_acquire (startup lib tid this t) = 2%nat
  ∧ count_calls is_window_release (startup lib tid this t) = 0%nat.
Proof. done. Qed.

(** C6, as the code has it.  Once the window is to be closed, the worker's
    [park_thread] returns.  The trace it has added is its start-up, which
    holds the two acquisitions of the window utility through
    [get_or_create]; then whole frames; then the loop test that answers
    true; and then, as the last two entries, the two releases through
    [remove_reference], one for each acquisition.  Nothing is released
    before the loop is left, and the reference count of the thread's window
    utility is what it was at the start.  This holds for the routine in
    bootable_game.cpp and for the one in glfw_context.cpp. *)
Theorem park_thread_releases_each_acquisition lib n fuel tid this w :
  closes_by lib n → (n < fuel)%nat →
  (∃ frames,
     Forall (λ f, f.1 ≠ GLFW_TRUE) frames
     ∧ releases_on_loop_exit tid (pointer (context this))
         (startup lib tid this (trace w))
         (flat_map (frame_events tid (pointer (context this))) frames)
         (bootable_game.park_thread lib fuel tid this w) w)
  ∧ (∃ frames,
       Forall (λ c, c ≠ GLFW_TRUE) frames
       ∧ releases_on_loop_exit tid (pointer (context this))
           (legacy_startup tid this)
           (flat_map (legacy_frame_events tid (pointer (context this))) frames)
           (glfw_context_cpp.park_thread lib fuel tid this w) w).
Proof.
  intros Hclose Hfuel. split.
  - unfold bootable_game.park_thread, glfw_context.make_current, temp_start, show.
    repeat step. unfold get_trace. repeat step.
    match goal with |- context [bootable_game.frame_loop lib fuel tid this ?w1] =>
      destruct (frame_loop_shape lib n fuel tid this w1 Hclose) as (frames & -> & Hf & _);
        [lia|] end.
    repeat step. exists frames. split; [done|].
    destruct (frame_events_registry tid (pointer (context this)) frames) as [Ha Hr].
    destruct (startup_acquires lib tid this (trace w)) as [Hsa Hsr].
    unfold releases_on_loop_exit. cbn [fst snd trace registry].
    split; [done|]. split; [|split; [done|split; [done|split]]].
    + unfold startup. rewrite <- !app_assoc. reflexivity.
    + by rewrite count_calls_app, Hsr, Hr.
    + apply window_refcount_balanced.
  - unfold glfw_context_cpp.park_thread, glfw_context.make_current, temp_start, show.
    repeat step.
    match goal with |- context [glfw_context_cpp.frame_loop lib fuel tid this ?w1] =>
      destruct (legacy_frame_loop_shape lib n fuel tid this w1 Hclose) as (frames & -> & Hf);
        [lia|] end.
    repeat step. exists frames. split; [done|].
    destruct (legacy_frame_events_registry tid (pointer (context this)) frames) as [Ha Hr].
    unfold releases_on_loop_exit. cbn [fst snd trace registry].
    split; [done|]. split; [|split; [done|split; [done|split]]].
    + unfold legacy_startup. rewrite <- !app_assoc. reflexivity.
    + by rewrite count_calls_app, Hr.
    + apply window_refcount_balanced.
Qed.

(** ** Concrete runs *)

Lemma active_contexts_counts_live_handles_witness :
  counted (Process [] start)
  ∧ counted (run_ops friendly (take 3 script) (Process [] start)).
Proof.
  split; [reflexivity|].
  apply (proj1 (active_contexts_counts_live_handles friendly script (Process [] start)
                  eq_refl) 3%nat).
Defined.

Lemma park_thread_returns_after_reading_zero_witness :
  is_Some (stepwise.park_thread friendly 0 destroyed_in_wait late_construction one_alive).
Proof.
  apply (proj1 (proj2 (park_thread_returns_after_reading_zero friendly 0 destroyed_in_wait
                         late_construction one_alive)) 1%nat).
  - cbn. lia.
  - intros [|j] Hj; [reflexivity | lia].
  - vm_compute. discriminate.
Defined.

Lemma execute_queue_runs_pending_in_order_witness :
  invoked (drop (length (trace three_pending))
             (trace (exec (global_glfw_context.execute_queue 0) three_pending)))
  = [(0%nat, destroy_lambda (Some 1%nat)); (0%nat, destroy_lambda (Some 2%nat));
     (0%nat, destroy_lambda (Some 3%nat))].
Proof.
  destruct (execute_queue_runs_pending_in_order 0 three_pending)
    as (extra & _ & -> & _ & _ & Hnone).
  rewrite (Hnone ltac:(repeat constructor)). reflexivity.
Defined.

Lemma destruction_is_deferred_witness :
  exec (glfw_context.destructor 1 (Glfw_context (Some 9%nat))) seven_current =
  World ∅ (delete 1%nat {[1%nat := 7%nat]}) [destroy_lambda (Some 9%nat)] 0 ∅
        [(1%nat, glfwMakeContextCurrent_ NULL); (1%nat, glfwPostEmptyEvent_)].
Proof.
  apply (proj2 (proj2 (proj2
    (destruction_is_deferred 1 (Glfw_context (Some 9%nat)) seven_current))) 9%nat eq_refl).
Defined.

Lemma failed_construction_keeps_counter_witness :
  (glfw_context.constructor unsupported 1 99 seven_current).1 = thrown GLEW_failed
  ∧ active_contexts (glfw_context.constructor unsupported 1 99 seven_current).2 = 1.
Proof.
  apply (failed_construction_keeps_counter unsupported 1 99 seven_current).
  vm_compute. discriminate.
Defined.

Lemma closes_by_friendly : closes_by friendly 2.
Proof. intros t Ht. cbn. by rewrite decide_True. Defined.

Lemma park_thread_releases_each_acquisition_witness :
  (∃ frames,
     Forall (λ f, f.1 ≠ GLFW_TRUE) frames
     ∧ releases_on_loop_exit 1 (Some 3%nat)
         (startup friendly 1 game [])
         (flat_map (frame_events 1 (Some 3%nat)) frames)
         (bootable_game.park_thread friendly 5 1 game start) start)
  ∧ (∃ frames,
       Forall (λ c, c ≠ GLFW_TRUE) frames
       ∧ releases_on_loop_exit 1 (Some 3%nat)
           (legacy_startup 1 game)
           (flat_map (legacy_frame_events 1 (Some 3%nat)) frames)
           (glfw_context_cpp.park_thread friendly 5 1 game start) start).
Proof.
  apply (park_thread_releases_each_acquisition friendly 2 5 1 game start closes_by_friendly).
  lia.
Defined.

Lemma graphics_error_is_logged_and_loop_continues_witness :
  bootable_game.frame_loop friendly 5 1 game start =
    bootable_game.frame_loop friendly 4 1 game
      (World ∅ ∅ [] 0 ∅
         [(1%nat, glfwWindowShouldClose_ (Some 3%nat) GLFW_FALSE);
          (1%nat, temp_update_);
          (1%nat, glGetError_ 1282);
          (1%nat, log_ ERROR
                    "An OpenGL error has occurred; context error flag is set to 1282");
          (1%nat, swap_buffers_)])
  ∧ ∃ frames,
      bootable_game.frame_loop friendly 5 1 game start =
        (true, World ∅ ∅ [] 0 ∅
                 ([(1%nat, glfwWindowShouldClose_ (Some 3%nat) GLFW_FALSE);
                   (1%nat, temp_update_)]
                    ++ [(1%nat, glGetError_ 1282);
                        (1%nat, log_ ERROR
                           "An OpenGL error has occurred; context error flag is set to 1282");
                        (1%nat, swap_buffers_)]
                    ++ flat_map (frame_events 1 (Some 3%nat)) frames
                    ++ [(1%nat, glfwWindowShouldClose_ (Some 3%nat) GLFW_TRUE)]))
      ∧ Forall (λ f, f.1 ≠ GLFW_TRUE) frames.
Proof.
  destruct (graphics_error_is_logged_and_loop_continues friendly 2 4 1 game start)
    as [Hstep Hrun].
  - vm_compute. discriminate.
  - vm_compute. discriminate.
  - split; [exact Hstep|]. apply Hrun; [exact closes_by_friendly | cbn; lia].
Defined.

(** C6, as the specification words it, fails: on a window that closes after
    two frames the worker releases the window utility twice, not once. *)
Lemma park_thread_does_not_release_once :
  ¬ releases_window_once (bootable_game.park_thread friendly 5 1 game start) start 1.
Proof. intros [Hone _]. vm_compute in Hone. discriminate. Qed.

Lemma constructor_hints_and_currentness_witness :
  hints (glfw_context.constructor friendly 1 43 seven_current).2
    !! GLFW_CONTEXT_VERSION_MAJOR = Some 4
  ∧ hints (glfw_context.constructor friendly 1 43 seven_current).2
      !! GLFW_CONTEXT_VERSION_MINOR = Some 3
  ∧ current (glfw_context.constructor friendly 1 43 seven_current).2 !! 1%nat = None.
Proof.
  destruct (constructor_hints_and_currentness friendly 1 43 seven_current)
    as (Hmajor & Hminor & _ & _ & Hret).
  split; [exact Hmajor|]. split; [exact Hminor|].
  exact (proj1 (proj2 (Hret (Glfw_context (Some 4%nat)) eq_refl))).
Defined.

Lemma park_thread_drains_without_live_context_witness :
  global_glfw_context.park_thread friendly 0 [] (Process [] three_pending) =
  Some (Process [] (exec (global_glfw_context.execute_queue 0) three_pending)).
Proof.
  destruct (park_thread_drains_without_live_context friendly 0 [] (Process [] three_pending))
    as (extra & Hret & _); [cbn; lia | exact Hret].
Defined.

Lemma deleter_clears_current_context_witness :
  seven_current.(current) !! 1%nat = Some 7%nat
  ∧ current (exec (destroy_glfw_window 1 (Some 9%nat)) seven_current) !! 1%nat = None.
Proof.
  split; [reflexivity|].
  apply (proj1 (deleter_clears_current_context 1 (Some 9%nat) seven_current)).
Defined.

(** * Further properties *)

(** ** More on [execute_queue] *)

Lemma deleted_task_events tid q :
  deleted (flat_map (task_events tid) q) = List.filter task_ret q.
Proof.
  unfold deleted. induction q as [|t q IH]; [done|].
  cbn [flat_map List.filter]. rewrite omap_app, IH.
  destruct t as [ptr|id [] adds]; reflexivity.
Qed.

Lemma drain_order_leaves fuel s :
  Forall (λ t, task_adds t = []) s → (queue_weight s < fuel)%nat → drain_order fuel s = s.
Proof.
  intros Hs Hlt. destruct (drain_order_pending fuel s Hlt) as (extra & -> & Hnone & _).
  by rewrite (Hnone Hs), app_nil_r.
Qed.

Lemma drain_order_one_level q : ∀ s fuel,
  Forall (λ t, Forall (λ t', task_adds t' = []) (task_adds t)) q →
  Forall (λ t, task_adds t = []) s →
  (queue_weight (q ++ s) < fuel)%nat →
  drain_order fuel (q ++ s) = q ++ s ++ concat (map task_adds q).
Proof.
  induction q as [|t q IH]; intros s fuel Hq Hs Hlt.
  - cbn [app map concat]. rewrite app_nil_r. by apply drain_order_leaves.
  - apply Forall_cons in Hq as [Ht Hq]. destruct fuel as [|fuel]; [lia|].
    cbn [app drain_order map concat]. f_equal.
    cbn [app queue_weight foldr] in Hlt. fold (queue_weight (q ++ s)) in Hlt.
    rewrite task_weight_adds in Hlt.
    rewrite <- app_assoc, IH.
    + by rewrite <- !app_assoc.
    + done.
    + by apply Forall_app.
    + rewrite app_assoc, queue_weight_app. lia.
Qed.

(** X1. Draining twice is the same as draining once, and draining an empty
    queue changes nothing at all. *)
Theorem execute_queue_idempotent tid w :
  exec (global_glfw_context.execute_queue tid) (exec (global_glfw_context.execute_queue tid) w)
  = exec (global_glfw_context.execute_queue tid) w
  ∧ (thread_queue w = [] → exec (global_glfw_context.execute_queue tid) w = w).
Proof.
  unfold exec. split.
  - rewrite !execute_queue_run. cbn [snd hints current thread_queue active_contexts registry
      trace queue_weight foldr drain_order flat_map]. by rewrite app_nil_r.
  - intros Hq. rewrite execute_queue_run, Hq.
    cbn [snd queue_weight foldr drain_order flat_map]. rewrite app_nil_r, <- Hq. by destruct w.
Qed.

(** X2. In one call of [execute_queue] the tasks that are deleted are
    exactly the tasks that were run and returned true, in the order in
    which they ran; a task that returned false is not deleted, and it is
    not put back either: the queue is empty afterwards. *)
Theorem execute_queue_deletes_what_returns_true tid w :
  ∃ new,
    trace (exec (global_glfw_context.execute_queue tid) w) = trace w ++ new
    ∧ deleted new = List.filter task_ret (invoked new).*2
    ∧ thread_queue (exec (global_glfw_context.execute_queue tid) w) = [].
Proof.
  unfold exec. rewrite execute_queue_run. cbn [snd trace thread_queue].
  eexists. split; [reflexivity|]. split; [|done].
  rewrite deleted_task_events, invoked_task_events. f_equal.
  rewrite <- list_fmap_compose. symmetry. apply list_fmap_id.
Qed.

(** X3. Tasks that a pending task adds while it runs are run by the same
    call of [execute_queue], after all tasks that were pending, in the
    order in which they were added (stated for added tasks that add nothing
    themselves). *)
Theorem execute_queue_runs_added_tasks tid w :
  Forall (λ t, Forall (λ t', task_adds t' = []) (task_adds t)) (thread_queue w) →
  exec (global_glfw_context.execute_queue tid) w =
  World (hints w) (current w) [] (active_contexts w) (registry w)
        (trace w ++ flat_map (task_events tid)
                      (thread_queue w ++ concat (map task_adds (thread_queue w)))).
Proof.
  intros Hq. unfold exec. rewrite execute_queue_run. cbn [snd].
  pose proof (drain_order_one_level (thread_queue w) [] (S (queue_weight (thread_queue w)))
                Hq ltac:(constructor)) as Hd.
  rewrite app_nil_r in Hd. rewrite Hd by lia. reflexivity.
Qed.

Lemma execute_queue_idempotent_witness :
  exec (global_glfw_context.execute_queue 0) start = start.
Proof. apply (proj2 (execute_queue_idempotent 0 start)). reflexivity. Defined.

Lemma execute_queue_runs_added_tasks_witness :
  (invoked (trace (exec (global_glfw_context.execute_queue 0) spawning))).*2 =
  [client_function 1 true [destroy_lambda (Some 5%nat)];
   destroy_lambda (Some 6%nat);
   client_function 2 false [destroy_lambda (Some 7%nat); destroy_lambda (Some 8%nat)];
   destroy_lambda (Some 5%nat); destroy_lambda (Some 7%nat); destroy_lambda (Some 8%nat)].
Proof.
  rewrite (execute_queue_runs_added_tasks 0 spawning); [reflexivity|].
  repeat constructor.
Defined.

(** ** More on the context handle *)

Lemma destroyed_windows_task_events tid q :
  destroyed_windows (flat_map (task_events tid) q) = queued_windows q.
Proof.
  unfold destroyed_windows, queued_windows. induction q as [|t q IH]; [done|].
  cbn [flat_map]. rewrite omap_app, IH.
  destruct t as [[a|]|id [] adds]; reflexivity.
Qed.

Lemma destroy_all_fields l : ∀ w,
  thread_queue (destroy_all l w)
    = thread_queue w ++ ((λ a, destroy_lambda (Some a)) <$> live_windows l.*2)
  ∧ active_contexts (destroy_all l w) = active_contexts w - Z.of_nat (length l)
  ∧ destroyed_windows (trace (destroy_all l w)) = destroyed_windows (trace w).
Proof.
  unfold destroy_all. induction l as [|[tid this] l IH]; intros w.
  - cbn. rewrite app_nil_r. split; [done|]. split; [lia|done].
  - cbn [foldl fst snd]. destruct (IH (exec (glfw_context.destructor tid this) w))
      as (Hq & Hc & Hd). rewrite Hq, Hc, Hd. unfold exec. rewrite destructor_run.
    cbn [snd fmap list_fmap live_windows omap list_omap length].
    destruct this as [[a|]]; cbn [pointer thread_queue active_contexts trace].
    + split; [by rewrite <- app_assoc|]. split; [lia|].
      unfold destroyed_windows. rewrite omap_app. cbn. apply app_nil_r.
    + split; [done|]. split; [lia|done].
Qed.

(** X4. Whether the constructor returns or throws, the constructing thread
    has no current context afterwards, whatever was current on it before,
    and the registry is as it was.  When the constructor returns, the
    current contexts of all other threads are as they were too. *)
Theorem constructor_leaves_no_context_current lib tid v w :
  current (glfw_context.constructor lib tid v w).2 !! tid = None
  ∧ registry (glfw_context.constructor lib tid v w).2 = registry w
  ∧ (glew_status lib tid v (trace w) = GLEW_OK →
     ∀ tid', tid' ≠ tid →
       current (glfw_context.constructor lib tid v w).2 !! tid' = current w !! tid').
Proof.
  destruct (decide (glew_status lib tid v (trace w) = GLEW_OK)) as [Hs|Hs].
  - rewrite (constructor_returns _ _ _ _ Hs). cbn [snd current registry].
    split; [apply lookup_delete_eq|]. split; [done|].
    intros _ tid' Hne. by apply lookup_delete_ne.
  - rewrite (constructor_throws _ _ _ _ Hs), pointer_release_run. cbn [snd].
    destruct (created lib tid v (trace w)) as [a|]; cbn [current registry];
      (split; [apply lookup_delete_eq|]; split; [done|]; intros Hok; contradiction).
Qed.

(** X5. When the constructor throws it has called [glfwTerminate], and a
    window that had already been created is not destroyed on the spot and
    not forgotten: exactly one destruction task for it is appended to the
    queue, after the call of [glfwTerminate].  When no window had been
    created the queue is as it was. *)
Theorem throwing_constructor_queues_its_window lib tid v w :
  glew_status lib tid v (trace w) ≠ GLEW_OK →
  thread_queue (glfw_context.constructor lib tid v w).2
    = thread_queue w ++ match created lib tid v (trace w) with
                        | Some a => [destroy_lambda (Some a)]
                        | None => []
                        end
  ∧ trace (glfw_context.constructor lib tid v w).2
    = made_current lib tid v (trace w)
        ++ [(tid, glewInit_ (glew_status lib tid v (trace w))); (tid, glfwTerminate_)]
        ++ match created lib tid v (trace w) with
           | Some _ => [(tid, glfwMakeContextCurrent_ NULL); (tid, glfwPostEmptyEvent_)]
           | None => []
           end.
Proof.
  intros Hs. rewrite (constructor_throws _ _ _ _ Hs), pointer_release_run. cbn [snd].
  destruct (created lib tid v (trace w)) as [a|]; cbn [thread_queue trace].
  - split; [done|]. by rewrite <- app_assoc.
  - by rewrite !app_nil_r.
Qed.

(** X6. Round trip.  A context constructed by one thread, destroyed by
    another and followed by one [execute_queue] on a third leaves the
    counter where it was and the queue empty, and the window that was
    created has been destroyed once, by the draining thread's call. *)
Theorem construct_destroy_drain_round_trip lib tid tid' tid0 v a w :
  glew_status lib tid v (trace w) = GLEW_OK →
  created lib tid v (trace w) = Some a →
  thread_queue w = [] →
  ∃ this w1,
    glfw_context.constructor lib tid v w = (returned this, w1)
    ∧ let w3 := exec (global_glfw_context.execute_queue tid0)
                  (exec (glfw_context.destructor tid' this) w1) in
      active_contexts w3 = active_contexts w
      ∧ thread_queue w3 = []
      ∧ destroyed_windows (trace w3) = destroyed_windows (trace w) ++ [a]
      ∧ destroyers (trace w3) = destroyers (trace w) ++ [tid0].
Proof.
  intros Hs Ha Hq. eexists _, _. split; [by apply constructor_returns|].
  cbn zeta. unfold exec. rewrite destructor_run, execute_queue_run, Ha, Hq.
  cbn [snd pointer thread_queue active_contexts trace app queue_weight foldr task_weight
       drain_order task_adds flat_map].
  split; [lia|]. split; [done|].
  unfold destroyed_windows, destroyers, made_current, hinted.
  rewrite <- !app_assoc, !omap_app. by cbn.
Qed.

(** X7. Handles destroyed one after the other have their windows destroyed
    in that same order by the next [execute_queue], after the windows of
    the destruction tasks that were already waiting; no window is destroyed
    before that call, and the counter has gone down by the number of
    handles. *)
Theorem windows_are_destroyed_in_destruction_order tid0 l w :
  Forall (λ t, task_adds t = []) (thread_queue w) →
  destroyed_windows (trace (destroy_all l w)) = destroyed_windows (trace w)
  ∧ let w' := exec (global_glfw_context.execute_queue tid0) (destroy_all l w) in
    active_contexts w' = active_contexts w - Z.of_nat (length l)
    ∧ thread_queue w' = []
    ∧ destroyed_windows (trace w')
      = destroyed_windows (trace w) ++ queued_windows (thread_queue w) ++ live_windows l.*2.
Proof.
  intros Hq. destruct (destroy_all_fields l w) as (Hq' & Hc & Hd). split; [done|].
  cbn zeta. unfold exec. rewrite execute_queue_run. cbn [snd active_contexts thread_queue trace].
  split; [done|]. split; [done|].
  rewrite drain_order_leaves; [| |lia].
  - unfold destroyed_windows at 1. rewrite omap_app. fold (destroyed_windows (trace (destroy_all l w))).
    fold (destroyed_windows (flat_map (task_events tid0) (thread_queue (destroy_all l w)))).
    rewrite Hd, destroyed_windows_task_events, Hq'. unfold queued_windows at 1.
    rewrite omap_app. f_equal. f_equal.
    generalize (live_windows l.*2). intros ws.
    induction ws as [|a ws IH]; [done|]. cbn. by rewrite IH.
  - rewrite Hq'. apply Forall_app. split; [done|].
    apply Forall_fmap, Forall_forall. by intros.
Qed.

(** ** The windows of a whole parking session *)

Lemma constructor_windows lib tid v w :
  created_windows (trace (glfw_context.constructor lib tid v w).2)
    = created_windows (trace w) ++ option_list (created lib tid v (trace w))
  ∧ destroyed_windows (trace (glfw_context.constructor lib tid v w).2)
    = destroyed_windows (trace w)
  ∧ destroyers (trace (glfw_context.constructor lib tid v w).2) = destroyers (trace w).
Proof.
  unfold created_windows, destroyed_windows, destroyers.
  destruct (decide (glew_status lib tid v (trace w) = GLEW_OK)) as [Hs|Hs].
  - rewrite (constructor_returns _ _ _ _ Hs). cbn [snd trace]. unfold made_current, hinted.
    rewrite <- !app_assoc, !omap_app. cbn. rewrite !app_nil_r.
    by destruct (created lib tid v (trace w)).
  - rewrite (constructor_throws _ _ _ _ Hs), pointer_release_run. cbn [snd].
    unfold made_current, hinted.
    destruct (created lib tid v (trace w)) as [a|] eqn:Ha; cbn [trace];
      rewrite <- !app_assoc, !omap_app; cbn; by rewrite !app_nil_r.
Qed.

Lemma destructor_windows tid this w :
  created_windows (trace (exec (glfw_context.destructor tid this) w)) = created_windows (trace w)
  ∧ destroyed_windows (trace (exec (glfw_context.destructor tid this) w))
    = destroyed_windows (trace w)
  ∧ destroyers (trace (exec (glfw_context.destructor tid this) w)) = destroyers (trace w).
Proof.
  unfold exec, created_windows, destroyed_windows, destroyers. rewrite destructor_run.
  cbn [snd]. destruct (pointer this); cbn [trace]; [|done].
  rewrite !omap_app. cbn. by rewrite !app_nil_r.
Qed.

Lemma run_op_destroyers lib o p :
  destroyers (trace (shared (run_op lib o p))) = destroyers (trace (shared p)).
Proof.
  destruct o as [tid v|tid i|t]; cbn [run_op].
  - pose proof (constructor_windows lib tid v (shared p)) as (_ & _ & Hd).
    by destruct (glfw_context.constructor lib tid v (shared p)) as [[this|what] w'].
  - destruct (handles p !! i) as [this|]; [|done]. apply destructor_windows.
  - done.
Qed.

Lemma run_ops_destroyers lib ops p :
  destroyers (trace (shared (run_ops lib ops p))) = destroyers (trace (shared p)).
Proof.
  unfold run_ops. revert p. induction ops as [|o ops IH]; intros p; [done|].
  cbn [foldl]. by rewrite IH, run_op_destroyers.
Qed.

Lemma destroyers_task_events tid q :
  ∃ k, destroyers (flat_map (task_events tid) q) = replicate k tid.
Proof.
  unfold destroyers. induction q as [|t q [k IH]]; [by exists 0%nat|].
  cbn [flat_map]. rewrite omap_app, IH.
  destruct t as [ptr|id [] adds]; [by exists (S k) | by exists k..].
Qed.

Lemma execute_queue_destroyers tid w :
  ∃ k, destroyers (trace (exec (global_glfw_context.execute_queue tid) w))
       = destroyers (trace w) ++ replicate k tid.
Proof.
  unfold exec. rewrite execute_queue_run. cbn [snd trace].
  destruct (destroyers_task_events tid
              (drain_order (S (queue_weight (thread_queue w))) (thread_queue w))) as [k Hk].
  exists k. unfold destroyers in *. by rewrite omap_app, Hk.
Qed.

Lemma round_destroyers lib tid ops p :
  ∃ k, destroyers (trace (shared (round lib tid ops p)))
       = destroyers (trace (shared p)) ++ replicate k tid.
Proof.
  unfold round, on_shared at 1. cbn [shared].
  destruct (execute_queue_destroyers tid
    (shared (run_ops lib ops (on_shared (exec (glfwWaitEventsTimeout tid)) p)))) as [k ->].
  exists k. rewrite run_ops_destroyers. unfold on_shared, exec. cbn [shared].
  rewrite glfwWaitEventsTimeout_run. cbn [snd trace]. unfold destroyers.
  rewrite omap_app. cbn. by rewrite app_nil_r.
Qed.

Lemma rounds_destroyers lib tid others p :
  ∃ k, destroyers (trace (shared (rounds lib tid others p)))
       = destroyers (trace (shared p)) ++ replicate k tid.
Proof.
  unfold rounds. revert p. induction others as [|ops others IH]; intros p.
  - exists 0%nat. cbn. by rewrite app_nil_r.
  - cbn [foldl]. destruct (IH (round lib tid ops p)) as [k ->].
    destruct (round_destroyers lib tid ops p) as [k' ->].
    exists (k' + k)%nat. by rewrite <- app_assoc, replicate_add.
Qed.

(** X8. The native destroy function is only ever called by the thread
    that runs the parking loop.  No sequence of constructions, destructions
    and enqueues by any threads calls it, and every call of it made between
    the start of [park_thread] and its return is made by the parked thread
    itself. *)
Theorem native_destroy_only_by_parked_thread lib tid others p :
  (∀ ops, destroyers (trace (shared (run_ops lib ops p))) = destroyers (trace (shared p)))
  ∧ (∀ p', global_glfw_context.park_thread lib tid others p = Some p' →
       ∃ k, destroyers (trace (shared p')) = destroyers (trace (shared p)) ++ replicate k tid).
Proof.
  split; [intros ops; apply run_ops_destroyers|].
  intros p' Hp'. destruct (park_thread_returned _ _ _ _ _ Hp') as (j & _ & _ & _ & ->).
  unfold final_drain, on_shared. cbn [shared].
  destruct (execute_queue_destroyers tid (shared (rounds lib tid (take j others) p))) as [k ->].
  destruct (rounds_destroyers lib tid (take j others) p) as [k' ->].
  exists (k' + k)%nat. by rewrite <- app_assoc, replicate_add.
Qed.










(** ** More on the worker *)

(** X10. The shape of the frame loop of bootable_game.cpp.  Once the window
    is to be closed after at most [n] buffer swaps, the loop returns, and
    what it wrote to the trace is a sequence of whole frames followed by
    the one loop test that answered true.  Each frame is a loop test that
    did not answer true, the update callback, the error query, one error
    line exactly when the queried code is not zero, and one buffer swap.
    There are at most as many frames as swaps were still missing, and the
    loop changes nothing but the trace. *)
Theorem frame_loop_runs_whole_frames lib n fuel tid this w :
  closes_by lib n →
  (n - count_calls is_swap (trace w) < fuel)%nat →
  ∃ frames,
    bootable_game.frame_loop lib fuel tid this w =
      (true, World (hints w) (current w) (thread_queue w) (active_contexts w) (registry w)
                   (trace w
                      ++ flat_map (frame_events tid (pointer (context this))) frames
                      ++ [(tid, glfwWindowShouldClose_ (pointer (context this)) GLFW_TRUE)]))
    ∧ Forall (λ f, f.1 ≠ GLFW_TRUE) frames
    ∧ (length frames ≤ n - count_calls is_swap (trace w))%nat.
Proof. apply frame_loop_shape. Qed.

(** X11. When the worker's [park_thread] returns, in either of its two
    versions, it has changed neither the task queue nor the live-context
    counter nor the window hints; its context is still current on the
    worker thread; and the registry counts one more reference to the
    thread's context than before, because the reference taken at the start
    is not given back.  The two versions end in the same state apart from
    the trace. *)
Theorem worker_leaves_context_current_and_referenced lib n fuel tid this w :
  closes_by lib n → (n < fuel)%nat →
  ∃ t1 t2,
    bootable_game.park_thread lib fuel tid this w = (true, parked tid this w t1)
    ∧ glfw_context_cpp.park_thread lib fuel tid this w = (true, parked tid this w t2)
    ∧ current (parked tid this w t1) !! tid = pointer (context this)
    ∧ refcount (registry (parked tid this w t1)) (glfw_context_t, tid)
      = S (refcount (registry w) (glfw_context_t, tid)).
Proof.
  intros Hclose Hfuel.
  assert (H1 : ∃ t1, bootable_game.park_thread lib fuel tid this w
                     = (true, parked tid this w t1)).
  { unfold bootable_game.park_thread, glfw_context.make_current, temp_start, show.
    repeat step. unfold get_trace. repeat step.
    match goal with |- context [bootable_game.frame_loop lib fuel tid this ?w1] =>
      destruct (frame_loop_closes lib n fuel tid this w1 Hclose) as (new & -> & _ & _);
        [lia|] end.
    repeat step. eexists. reflexivity. }
  assert (H2 : ∃ t2, glfw_context_cpp.park_thread lib fuel tid this w
                     = (true, parked tid this w t2)).
  { unfold glfw_context_cpp.park_thread, glfw_context.make_current, temp_start, show.
    repeat step.
    match goal with |- context [glfw_context_cpp.frame_loop lib fuel tid this ?w1] =>
      destruct (legacy_frame_loop_closes lib n fuel tid this w1 Hclose) as (new & -> & _ & _);
        [lia|] end.
    repeat step. eexists. reflexivity. }
  destruct H1 as [t1 H1], H2 as [t2 H2]. exists t1, t2.
  split; [done|]. split; [done|]. split.
  - cbn [parked current]. destruct (pointer (context this));
      [apply lookup_insert_eq | apply lookup_delete_eq].
  - cbn [parked registry].
    rewrite !refcount_released, !refcount_acquired, refcount_installed.
    rewrite !decide_False by done. by rewrite decide_True by done.
Qed.

(** X12. Constructing a [bootable_game] constructs exactly one context:
    version 4.3 in bootable_game.cpp, version 3.3 in glfw_context.cpp.  When
    the context constructor returns, so does this one, with the counter one
    higher; when it throws, the same error leaves this constructor and the
    counter is as before. *)
Theorem bootable_game_constructor_counts_one_context lib tid w :
  (glew_status lib tid 43 (trace w) = GLEW_OK →
     (bootable_game.constructor lib tid w).1
       = returned (Bootable_game (Glfw_context (created lib tid 43 (trace w))))
     ∧ active_contexts (bootable_game.constructor lib tid w).2 = active_contexts w + 1
     ∧ hints (bootable_game.constructor lib tid w).2 !! GLFW_CONTEXT_VERSION_MAJOR = Some 4
     ∧ hints (bootable_game.constructor lib tid w).2 !! GLFW_CONTEXT_VERSION_MINOR = Some 3)
  ∧ (glew_status lib tid 43 (trace w) ≠ GLEW_OK →
     (bootable_game.constructor lib tid w).1 = thrown GLEW_failed
     ∧ active_contexts (bootable_game.constructor lib tid w).2 = active_contexts w)
  ∧ (glew_status lib tid 33 (trace w) = GLEW_OK →
     (glfw_context_cpp.constructor lib tid w).1
       = returned (Bootable_game (Glfw_context (created lib tid 33 (trace w))))
     ∧ active_contexts (glfw_context_cpp.constructor lib tid w).2 = active_contexts w + 1
     ∧ hints (glfw_context_cpp.constructor lib tid w).2 !! GLFW_CONTEXT_VERSION_MAJOR = Some 3
     ∧ hints (glfw_context_cpp.constructor lib tid w).2 !! GLFW_CONTEXT_VERSION_MINOR = Some 3)
  ∧ (glew_status lib tid 33 (trace w) ≠ GLEW_OK →
     (glfw_context_cpp.constructor lib tid w).1 = thrown GLEW_failed
     ∧ active_contexts (glfw_context_cpp.constructor lib tid w).2 = active_contexts w).
Proof.
  unfold bootable_game.constructor, glfw_context_cpp.constructor.
  split; [|split; [|split]]; intros Hs; rewrite bind_run.
  - rewrite (constructor_returns _ _ _ _ Hs). cbn [fst snd]. rewrite ret_run.
    cbn [fst snd active_contexts hints]. unfold version_hints.
    split; [done|]. split; [done|]. split.
    + rewrite lookup_insert_ne by done. rewrite lookup_insert_ne by done.
      by rewrite lookup_insert_eq.
    + rewrite lookup_insert_ne by done. by rewrite lookup_insert_eq.
  - pose proof (constructor_active_contexts lib tid 43 w) as Hc.
    rewrite (constructor_throws _ _ _ _ Hs) in *. cbn [fst snd] in *. by rewrite ret_run.
  - rewrite (constructor_returns _ _ _ _ Hs). cbn [fst snd]. rewrite ret_run.
    cbn [fst snd active_contexts hints]. unfold version_hints.
    split; [done|]. split; [done|]. split.
    + rewrite lookup_insert_ne by done. rewrite lookup_insert_ne by done.
      by rewrite lookup_insert_eq.
    + rewrite lookup_insert_ne by done. by rewrite lookup_insert_eq.
  - pose proof (constructor_active_contexts lib tid 33 w) as Hc.
    rewrite (constructor_throws _ _ _ _ Hs) in *. cbn [fst snd] in *. by rewrite ret_run.
Qed.

(** ** Concrete runs of the further properties *)

Lemma constructor_leaves_no_context_current_witness :
  current (glfw_context.constructor friendly 2 43 seven_current).2 !! 1%nat = Some 7%nat
  ∧ current (glfw_context.constructor friendly 2 43 seven_current).2 !! 2%nat = None.
Proof.
  destruct (constructor_leaves_no_context_current friendly 2 43 seven_current)
    as (Hnone & _ & Hother).
  split; [|exact Hnone]. rewrite (Hother eq_refl); [reflexivity | lia].
Defined.

Lemma throwing_constructor_queues_its_window_witness :
  thread_queue (glfw_context.constructor broken_loader 1 43 start).2
  = [destroy_lambda (Some 4%nat)].
Proof.
  rewrite (proj1 (throwing_constructor_queues_its_window broken_loader 1 43 start
                    ltac:(vm_compute; discriminate))).
  reflexivity.
Defined.

Lemma construct_destroy_drain_round_trip_witness :
  ∃ this w1,
    glfw_context.constructor friendly 1 43 start = (returned this, w1)
    ∧ let w3 := exec (global_glfw_context.execute_queue 0)
                  (exec (glfw_context.destructor 2 this) w1) in
      active_contexts w3 = active_contexts start
      ∧ thread_queue w3 = []
      ∧ destroyed_windows (trace w3) = destroyed_windows (trace start) ++ [4%nat]
      ∧ destroyers (trace w3) = destroyers (trace start) ++ [0%nat].
Proof.
  apply (construct_destroy_drain_round_trip friendly 1 2 0 43 4 start);
    reflexivity.
Defined.

Lemma windows_are_destroyed_in_destruction_order_witness :
  destroyed_windows
    (trace (exec (global_glfw_context.execute_queue 0) (destroy_all two_handles three_pending)))
  = [1%nat; 2%nat; 3%nat; 5%nat; 6%nat].
Proof.
  destruct (windows_are_destroyed_in_destruction_order 0 two_handles three_pending
              ltac:(repeat constructor)) as (_ & _ & _ & ->).
  reflexivity.
Defined.

Lemma native_destroy_only_by_parked_thread_witness :
  match global_glfw_context.park_thread friendly 0 session one_context with
  | Some p' => ∃ k, destroyers (trace (shared p')) = replicate k 0%nat
  | None => False
  end.
Proof.
  destruct (global_glfw_context.park_thread friendly 0 session one_context) as [p'|] eqn:E;
    [|vm_compute in E; discriminate].
  exact (proj2 (native_destroy_only_by_parked_thread friendly 0 session one_context) p' E).
Defined.




Lemma frame_loop_runs_whole_frames_witness :
  (bootable_game.frame_loop friendly 5 1 game start).1 = true.
Proof.
  destruct (frame_loop_runs_whole_frames friendly 2 5 1 game start closes_by_friendly
              ltac:(cbn; lia)) as (frames & -> & _).
  reflexivity.
Defined.

Lemma worker_leaves_context_current_and_referenced_witness :
  ∃ t1 t2,
    bootable_game.park_thread friendly 5 1 game start = (true, parked 1 game start t1)
    ∧ glfw_context_cpp.park_thread friendly 5 1 game start = (true, parked 1 game start t2)
    ∧ current (parked 1 game start t1) !! 1%nat = pointer (context game)
    ∧ refcount (registry (parked 1 game start t1)) (glfw_context_t, 1%nat)
      = S (refcount (registry start) (glfw_context_t, 1%nat)).
Proof.
  apply (worker_leaves_context_current_and_referenced friendly 2 5 1 game start
           closes_by_friendly).
  lia.
Defined.

Lemma bootable_game_constructor_counts_one_context_witness :
  active_contexts (bootable_game.constructor friendly 1 start).2 = 1
  ∧ (bootable_game.constructor unsupported 1 start).1 = thrown GLEW_failed.
Proof.
  split.
  - apply (proj1 (bootable_game_constructor_counts_one_context friendly 1 start) eq_refl).
  - apply (proj1 (proj2 (bootable_game_constructor_counts_one_context unsupported 1 start))).
    vm_compute. discriminate.
Defined.

(** ** What ends the parking loop *)

Lemma run_op_keeps_counter_up lib o p :
  ¬ is_destruction o → active_contexts (shared p) ≤ active_contexts (shared (run_op lib o p)).
Proof.
  intros Ho. destruct o as [tid v|tid i|t]; cbn [run_op]; [| by destruct Ho | done].
  pose proof (constructor_active_contexts lib tid v (shared p)) as Hc.
  destruct (glfw_context.constructor lib tid v (shared p)) as [[this|what] w'];
    cbn [fst snd shared] in *; lia.
Qed.

Lemma run_ops_keep_counter_up lib ops p :
  Forall (λ o, ¬ is_destruction o) ops →
  active_contexts (shared p) ≤ active_contexts (shared (run_ops lib ops p)).
Proof.
  unfold run_ops. revert p. induction ops as [|o ops IH]; intros p Hops; [done|].
  apply Forall_cons in Hops as [Ho Hops]. cbn [foldl].
  etrans; [by apply (run_op_keeps_counter_up lib o)|]. by apply IH.
Qed.

Lemma rounds_keep_counter_up lib tid others p :
  Forall (Forall (λ o, ¬ is_destruction o)) others →
  active_contexts (shared p) ≤ active_contexts (shared (rounds lib tid others p)).
Proof.
  unfold rounds. revert p. induction others as [|ops others IH]; intros p Ho; [done|].
  apply Forall_cons in Ho as [Hops Ho]. cbn [foldl]. etrans; [|by apply IH].
  unfold round, on_shared at 1. cbn [shared]. rewrite execute_queue_active_contexts.
  etrans; [|by apply run_ops_keep_counter_up]. done.
Qed.

(** X13. Only the destruction of a handle can end the parking loop.  If the
    counter is positive when [park_thread] is called and the other threads
    construct handles and enqueue tasks but destroy no handle, then
    [park_thread] does not return, however many tasks it runs. *)
Theorem park_thread_needs_a_destruction lib tid others p :
  0 < active_contexts (shared p) →
  Forall (Forall (λ o, ¬ is_destruction o)) others →
  global_glfw_context.park_thread lib tid others p = None.
Proof.
  intros Hpos Ho. apply park_thread_blocked. intros j _.
  eapply Z.lt_le_trans; [exact Hpos|]. apply rounds_keep_counter_up. by apply Forall_take.
Qed.

Lemma park_thread_needs_a_destruction_witness :
  global_glfw_context.park_thread friendly 0 no_destruction one_context = None.
Proof.
  apply (park_thread_needs_a_destruction friendly 0 no_destruction one_context).
  - reflexivity.
  - repeat constructor; intros [].
Defined.

